(** * cpj: parallel recursive copy

    A shallow embedding of the Go program [cpj] (package [stack] and the
    [main] package: [parallelCopy], [countFiles], [visitDirectory],
    [recurseFileTree], [copyRoutine], [jobDispatcher]) together with the
    properties of its job queue, tree enumeration, path mapping and
    worker/dispatcher protocol.

    Go [int] is modelled as [Z], Go [string] as [string] (a sequence of
    bytes), a [*stack.Stack] as [option Stack] ([None] is the nil pointer),
    an [error] as [option error] ([None] is nil).  Goroutines are modelled
    as an interleaving transition system: a state holds the shared
    [copyJob], the buffered channel, one program counter per goroutine and
    the state of the dispatcher, and [step] lets one thread perform one
    atomic action: taking the mutex, the pops under the mutex up to
    [Unlock], one send, one receive, one call of [cp.CopyFile], one [go]
    statement.  The program is taken with [debug] off; what it prints under
    [useful] and [verbose] is not modelled.  The packages [cp], [os] and
    [path/filepath] are collaborators: [cp.AbsolutePath], [os.Lstat] and
    [cp.CopyFile] are variables, and [filepath.Walk] is the fold of its
    function over the entries of a tree in the order it documents. *)

From Stdlib Require Import ZArith Lia String Ascii.
From stdpp Require Import base tactics option list strings.

Local Open Scope string_scope.
Local Open Scope list_scope.
Local Open Scope Z_scope.

(** ** Package [stack] *)

Module stack.

(** [type Stack []string] *)
Abbreviation Stack := (list string).

(** [func Push(stk *Stack, val string) *Stack]: appends in place and returns
    the same pointer; a nil pointer is reported and returned as nil. *)
Definition Push (stk : option Stack) (val : string) : option Stack :=
  match stk with
  | None => None
  | Some l => Some (l ++ [val])
  end.

(** [func Pop(stk *Stack) (string, *Stack)]: on a nil pointer or an empty
    stack the result is the empty string and nil; otherwise, with
    [n := len - 1], the result is the element at [n] and a pointer to the
    slice [[:n]]. *)
Definition Pop (stk : option Stack) : string * option Stack :=
  match stk with
  | None => (EmptyString, None)
  | Some l =>
      if (length l =? 0)%nat then (EmptyString, None)
      else
        let n := (length l - 1)%nat in
        (nth n l EmptyString, Some (take n l))
  end.

(** [func Merge(dest, src *Stack) *Stack]: pushes every element of [*src]
    onto [dest] and returns [dest]. *)
Definition Merge (dest : option Stack) (src : Stack) : option Stack :=
  fold_left Push src dest.

End stack.

Import stack.

(** ** Go library functions used by the program *)

(** [strings.HasPrefix]: [len(s) >= len(prefix) && s[:len(prefix)] == prefix]. *)
Definition HasPrefix (s prefix : string) : bool :=
  (String.length prefix <=? String.length s)%nat
  && String.eqb (substring 0 (String.length prefix) s) prefix.

(** [strings.HasSuffix]:
    [len(s) >= len(suffix) && s[len(s)-len(suffix):] == suffix]. *)
Definition HasSuffix (s suffix : string) : bool :=
  (String.length suffix <=? String.length s)%nat
  && String.eqb
       (substring (String.length s - String.length suffix)
                  (String.length suffix) s)
       suffix.

(** [strings.TrimPrefix]: [s] without the leading [prefix], or [s] itself
    when it does not start with [prefix]. *)
Definition TrimPrefix (s prefix : string) : string :=
  if HasPrefix s prefix
  then substring (String.length prefix)
                 (String.length s - String.length prefix) s
  else s.

(** [strings.Join(elems, sep)]. *)
Definition Join (elems : list string) (sep : string) : string :=
  String.concat sep elems.

(** The built-in [copy(dst, src)]: overwrites the first
    [min(len(dst), len(src))] elements of [dst] and returns that number. *)
Definition go_copy (dst src : Stack) : Stack * Z :=
  let n := Nat.min (length dst) (length src) in
  (take n src ++ drop n dst, Z.of_nat n).

(** [filepath.Join(dir, name)] for a cleaned directory path and the name of
    one of its entries: an empty [dir] is ignored, and exactly one separator
    stands between the two. *)
Definition filepath_Join (dir name : string) : string :=
  if String.eqb dir EmptyString then name
  else if HasSuffix dir "/" then dir +:+ name
  else dir +:+ "/" +:+ name.

(** What [filepath.Walk] finds at a path.  A directory lists its entries in
    the order in which [Walk] reads them. *)
#[warnings="-register-all"]
Inductive fsnode :=
| File
| Dir (entries : list (string * fsnode))
| DirUnreadable
| NoStat.

(** One call of the [filepath.WalkFunc]: [fn(path, info, err)], with
    [info.IsDir()] and whether [err] is non-nil. *)
Record visit := Visit { v_path : string; v_isDir : bool; v_err : bool }.

(** The calls [filepath.Walk] makes, in order, when no call returns an
    error: the entry itself first, then, for a directory, the walk of each
    of its entries in turn.  A directory that cannot be listed and an entry
    whose [Lstat] fails are passed to the function with the error. *)
Fixpoint walk (path : string) (n : fsnode) : list visit :=
  match n with
  | File => [Visit path false false]
  | Dir entries =>
      Visit path true false ::
      (fix each (es : list (string * fsnode)) : list visit :=
         match es with
         | [] => []
         | (name, c) :: es' => walk (filepath_Join path name) c ++ each es'
         end) entries
  | DirUnreadable => [Visit path true true]
  | NoStat => [Visit path false true]
  end.

(** A [filepath.WalkFunc] closing over a variable of type [A].  The two
    functions of the program never return an error; [None] stands for
    [log.Fatal], which ends the process. *)
Definition WalkFunc (A : Type) := A → visit → option A.

Fixpoint walk_calls {A} (fn : WalkFunc A) (vs : list visit) (a : A) : option A :=
  match vs with
  | [] => Some a
  | v :: vs' =>
      match fn a v with
      | None => None
      | Some a' => walk_calls fn vs' a'
      end
  end.

(** ** Package [main] *)

Definition error := string.

(** [errors.New] *)
Definition errors_New (msg : string) : option error := Some msg.

(** [type copyJob struct { mu sync.Mutex; src, dest *stack.Stack }];
    [mu] is [true] while the mutex is held. *)
Record copyJob := CopyJob { mu : bool; src : option Stack; dest : option Stack }.

(** [type copyError struct { id int; src, dest string; err error }] *)
Record copyError := CopyError { id : Z; e_src : string; e_dest : string; err : option error }.

(** [countFiles(&count)] *)
Definition countFiles : WalkFunc Z := fun count v =>
  if v_err v then None
  else if v_isDir v then Some count
  else Some (count + 1).

(** [visitDirectory(files)] *)
Definition visitDirectory : WalkFunc (option Stack) := fun files v =>
  if v_err v then None
  else if v_isDir v then Some files
  else Some (Push files (v_path v)).

(** Lines 207-218 of [copyRoutine] between [Lock] and [Unlock]: the two
    pops and the test [jobs.src == nil].  The result is the job, or
    [None] when the queue reported empty, and the queue afterwards; the
    mutex is untouched. *)
Definition claim (jobs : copyJob) : option (string * string) * copyJob :=
  let '(s, src') := Pop (src jobs) in
  let '(d, dest') := Pop (dest jobs) in
  let jobs' := CopyJob (mu jobs) src' dest' in
  match src' with
  | None => (None, jobs')
  | Some _ => (Some (s, d), jobs')
  end.

(** Claims made one after the other, by whichever goroutine, until the
    queue reports empty or [fuel] claims have been made: the jobs obtained,
    in order, and the queue afterwards. *)
Fixpoint drain (fuel : nat) (jobs : copyJob) : list (string * string) * copyJob :=
  match fuel with
  | O => ([], jobs)
  | S fuel' =>
      match claim jobs with
      | (None, jobs') => ([], jobs')
      | (Some job, jobs') =>
          let '(rest, jobs'') := drain fuel' jobs' in (job :: rest, jobs'')
      end
  end.

(** Lines 105-138 of [parallelCopy]: the destination list made of [count]
    empty strings, filled by [copy], stripped of the source root and
    prefixed with the destination root. *)
Definition slash (root : string) : string :=
  if negb (HasSuffix root "/") then Join [root; "/"] EmptyString else root.

Definition mapDest (srcAbs destAbs : string) (count : Z) (srcFiles : Stack) : Stack * Z :=
  let destFiles := replicate (Z.to_nat count) EmptyString in
  let '(destFiles, numFiles) := go_copy destFiles srcFiles in
  let srcAbs := slash srcAbs in
  let destFiles := map (fun file => TrimPrefix file srcAbs) destFiles in
  let destAbs := slash destAbs in
  let destFiles := map (fun file => Join [destAbs; file] EmptyString) destFiles in
  (destFiles, numFiles).

(** *** The goroutines

    Program counter of one [copyRoutine] goroutine: about to lock the
    mutex (line 207); holding it, before the two pops (208-210); holding
    it, at the send of the completion message (214); with the message
    sent, before [Unlock] (215); about to call [cp.CopyFile] (225); at the
    send of a failure message (227); returned. *)
Inductive routine :=
| RLock
| RPop
| RDone
| RUnlock
| RCopy (s d : string)
| RFail (s d : string) (e : error)
| RExit.

(** State of [jobDispatcher]: in the spawning loop with counter [i]
    (255-260); in the receiving loop (262-280); returned (277). *)
Inductive dispatcher :=
| DSpawn (i : Z)
| DRecv (total : Z) (ret : list error)
| DReturn (ret : list error).

Inductive thread :=
| Dispatcher
| Routine (i : nat).

(** The variables of [jobDispatcher] that stay fixed once the channel is
    made: the flags, [jobs] after clamping, and the capacity of
    [errChannel]. *)
Record locals := Locals {
  l_cont : bool; l_link : bool; l_verbose : bool; l_jobs : Z; l_cap : Z }.

(** Shared state and effects: the [copyJob], the messages buffered in
    [errChannel] (oldest first), the goroutines by [id], the dispatcher,
    the calls of [cp.CopyFile] made so far and the jobs claimed so far with
    the [id] of the claiming goroutine (both oldest first). *)
Record state := State {
  copyLock : copyJob;
  errChannel : list copyError;
  routines : list routine;
  disp : dispatcher;
  copies : list (string * string);
  claims : list (Z * (string * string)) }.

(** A send on the buffered channel proceeds when the buffer has room.
    [jobDispatcher] makes an unbuffered channel only when it starts no
    goroutine. *)
Definition full (L : locals) (s : state) : bool :=
  l_cap L <=? Z.of_nat (length (errChannel s)).

(** ** A small tree and its copies, for the examples *)

Definition demo_tree : list (string * fsnode) :=
  [("f1", File); ("f2", File); ("f3", File);
   ("sub", Dir [("f4", File); ("f5", File)])].

Definition demo_fs (root : string) : fsnode :=
  if String.eqb root "/a" then Dir demo_tree else NoStat.

Definition demo_AbsolutePath (path : string) : error + string := inr path.

Definition demo_Lstat (path : string) : error + bool :=
  inr (String.eqb path "/a" || String.eqb path "/b").

Definition demo_CopyFile (s d : string) (hardlink : bool) : option error :=
  if String.eqb s "/a/f3" then Some "permission denied" else None.

Definition demo_src : Stack :=
  ["/a/f1"; "/a/f2"; "/a/f3"; "/a/sub/f4"; "/a/sub/f5"].

Definition demo_dest : Stack :=
  ["/b/f1"; "/b/f2"; "/b/f3"; "/b/sub/f4"; "/b/sub/f5"].

(** Two jobs that do not fail, a tree with a directory that cannot be
    listed, and a tree that holds directories only. *)
Definition demo_ok_src : Stack := ["/a/f1"; "/a/f2"].

Definition demo_ok_dest : Stack := ["/b/f1"; "/b/f2"].

Definition demo_locked_fs (root : string) : fsnode :=
  Dir [("f1", File); ("locked", DirUnreadable); ("f2", File)].


(** The dispatcher and three goroutines acting in turn, [n] times over. *)
Definition round_robin (n : nat) : list thread :=
  concat (replicate n [Dispatcher; Routine 0; Routine 1; Routine 2]).

Section Program.

Set Default Proof Using "Type".

(** The collaborators: [cp.AbsolutePath], [os.Lstat] (answering
    [IsDir()]), [cp.CopyFile], and what [filepath.Walk] finds at a root. *)
Variable cp_AbsolutePath : string → error + string.
Variable os_Lstat : string → error + bool.
Variable cp_CopyFile : string → string → bool → option error.
Variable fs : string → fsnode.

(** [filepath.Walk(root, fn)] with [fn] closing over [a]. *)
Definition filepath_Walk {A} (root : string) (fn : WalkFunc A) (a : A) : option A :=
  walk_calls fn (walk root (fs root)) a.

(** [recurseFileTree]: [Walk] never returns an error here, so there is no
    panic; [None] is the [log.Fatal] of [visitDirectory]. *)
Definition recurseFileTree (directory : string) (stk : Stack) : option Stack :=
  match filepath_Walk directory visitDirectory (Some stk) with
  | None => None
  | Some files => Some (default stk files)
  end.

(** One atomic action of goroutine [i] of [copyRoutine], at program counter
    [pc]; [None] when it is blocked or has returned. *)
Definition copyRoutine (L : locals) (i : nat) (pc : routine) (s : state) : option state :=
  let jobs := copyLock s in
  match pc with
  | RLock =>
      if mu jobs then None
      else Some (State (CopyJob true (src jobs) (dest jobs)) (errChannel s)
                       (<[i := RPop]> (routines s)) (disp s) (copies s) (claims s))
  | RPop =>
      match claim jobs with
      | (None, jobs') =>
          Some (State jobs' (errChannel s)
                      (<[i := RDone]> (routines s)) (disp s) (copies s) (claims s))
      | (Some (src0, dest0), jobs') =>
          Some (State (CopyJob false (src jobs') (dest jobs')) (errChannel s)
                      (<[i := RCopy src0 dest0]> (routines s)) (disp s) (copies s)
                      (claims s ++ [(Z.of_nat i, (src0, dest0))]))
      end
  | RDone =>
      if full L s then None
      else Some (State jobs
                       (errChannel s ++ [CopyError (Z.of_nat i) EmptyString EmptyString None])
                       (<[i := RUnlock]> (routines s)) (disp s) (copies s) (claims s))
  | RUnlock =>
      Some (State (CopyJob false (src jobs) (dest jobs)) (errChannel s)
                  (<[i := RExit]> (routines s)) (disp s) (copies s) (claims s))
  | RCopy src0 dest0 =>
      match cp_CopyFile src0 dest0 (l_link L) with
      | None =>
          Some (State jobs (errChannel s) (<[i := RLock]> (routines s)) (disp s)
                      (copies s ++ [(src0, dest0)]) (claims s))
      | Some e =>
          Some (State jobs (errChannel s) (<[i := RFail src0 dest0 e]> (routines s))
                      (disp s) (copies s ++ [(src0, dest0)]) (claims s))
      end
  | RFail src0 dest0 e =>
      if full L s then None
      else Some (State jobs
                       (errChannel s ++ [CopyError (Z.of_nat i) src0 dest0 (Some e)])
                       (<[i := if l_cont L then RLock else RExit]> (routines s))
                       (disp s) (copies s) (claims s))
  | RExit => None
  end.

(** One atomic action of [jobDispatcher] after the channel is made: start
    the next goroutine, leave the spawning loop with [total := jobs], or
    receive one message.  The channel is never closed, so the [range] loop
    ends only by the [return] at line 277. *)
Definition jobDispatcher_step (L : locals) (s : state) : option state :=
  match disp s with
  | DSpawn i =>
      if i <? l_jobs L
      then Some (State (copyLock s) (errChannel s) (routines s ++ [RLock])
                       (DSpawn (i + 1)) (copies s) (claims s))
      else Some (State (copyLock s) (errChannel s) (routines s)
                       (DRecv (l_jobs L) []) (copies s) (claims s))
  | DRecv total ret =>
      match errChannel s with
      | [] => None
      | m :: rest =>
          match err m with
          | Some e =>
              Some (State (copyLock s) rest (routines s)
                          (DRecv total (ret ++ [e])) (copies s) (claims s))
          | None =>
              let total := total - 1 in
              Some (State (copyLock s) rest (routines s)
                          (if total =? 0 then DReturn ret else DRecv total ret)
                          (copies s) (claims s))
          end
      end
  | DReturn _ => None
  end.

Definition step (L : locals) (s : state) (t : thread) : option state :=
  match t with
  | Dispatcher => jobDispatcher_step L s
  | Routine i =>
      match routines s !! i with
      | Some pc => copyRoutine L i pc s
      | None => None
      end
  end.

(** Lines 240-254 of [jobDispatcher]: the [copyJob], the clamping of
    [jobs] and the channel.  [None] is the panic of [make] on a negative
    capacity. *)
Definition jobDispatcher_init (src0 dest0 : Stack) (link cont verbose : bool) (jobs : Z)
  : option (locals * state) :=
  let copyLock := CopyJob false (Some src0) (Some dest0) in
  let size := Z.of_nat (length src0) in
  let jobs := if jobs >? size then size else jobs in
  let cap := if cont then jobs * 2 else jobs in
  if cap <? 0 then None
  else Some (Locals cont link verbose jobs cap,
             State copyLock [] [] (DSpawn 0) [] []).

(** States of an execution from [s0]. *)
Inductive reachable (L : locals) (s0 : state) : state → Prop :=
| reachable_init : reachable L s0 s0
| reachable_step s t s' :
    reachable L s0 s → step L s t = Some s' → reachable L s0 s'.

(** The state after letting the threads of a schedule act in turn; a thread
    that cannot act is skipped. *)
Fixpoint run (L : locals) (sched : list thread) (s : state) : state :=
  match sched with
  | [] => s
  | t :: sched' => run L sched' (default s (step L s t))
  end.

(** No thread can act. *)
Definition stuck (L : locals) (s : state) : Prop := ∀ t, step L s t = None.

(** [jobDispatcher(src, dest, link, cont, verbose, jobs)] returns [ret] in
    some execution. *)
Definition jobDispatcher_returns (src0 dest0 : Stack) (link cont verbose : bool) (jobs : Z)
    (ret : list error) : Prop :=
  ∃ L s0 s, jobDispatcher_init src0 dest0 link cont verbose jobs = Some (L, s0)
            ∧ reachable L s0 s ∧ disp s = DReturn ret.

(** Calls made by [parallelCopy], and how it ends: it returns an error
    value, the process exits in [log.Fatal], or it reaches line 146 and
    calls [jobDispatcher], after which it returns nil. *)
Inductive call :=
| call_AbsolutePath (path : string)
| call_Lstat (path : string)
| call_Walk (root : string)
| call_CopyFile (s d : string) (hardlink : bool)
| call_jobDispatcher (srcFiles destFiles : Stack) (link cont verbose : bool) (jobs : Z).

Inductive ending :=
| Return (e : option error)
| Fatal
| ReturnAfterDispatch (srcFiles destFiles : Stack) (link cont verbose : bool) (jobs : Z)
                      (e : option error).

Definition parallelCopy (src0 dest0 : string) (hardlink recurse useful cont verbose : bool)
    (jobs : Z) : list call * ending :=
  match cp_AbsolutePath src0 with
  | inl e => ([call_AbsolutePath src0], Return (Some e))
  | inr srcAbs =>
  match os_Lstat srcAbs with
  | inl e => ([call_AbsolutePath src0; call_Lstat srcAbs], Return (Some e))
  | inr isDir =>
  if negb isDir then
    ([call_AbsolutePath src0; call_Lstat srcAbs; call_CopyFile src0 dest0 hardlink],
     Return (cp_CopyFile src0 dest0 hardlink))
  else if negb recurse then
    ([call_AbsolutePath src0; call_Lstat srcAbs],
     Return (errors_New "source is a directory, but you did not provide -recurse"))
  else
  match cp_AbsolutePath dest0 with
  | inl e =>
      ([call_AbsolutePath src0; call_Lstat srcAbs; call_AbsolutePath dest0], Return (Some e))
  | inr destAbs =>
  let tr := [call_AbsolutePath src0; call_Lstat srcAbs;
             call_AbsolutePath dest0; call_Lstat destAbs] in
  match os_Lstat destAbs with
  | inl e => (tr, Return (Some e))
  | inr destIsDir =>
  if negb destIsDir then
    (tr, Return (errors_New "source is a directory but destination is not"))
  else
  match filepath_Walk srcAbs countFiles 0 with
  | None => (tr ++ [call_Walk srcAbs], Fatal)
  | Some count =>
  match recurseFileTree srcAbs [] with
  | None => (tr ++ [call_Walk srcAbs; call_Walk srcAbs], Fatal)
  | Some srcFiles =>
  let '(destFiles, numFiles) := mapDest srcAbs destAbs count srcFiles in
  (tr ++ [call_Walk srcAbs; call_Walk srcAbs;
          call_jobDispatcher srcFiles destFiles hardlink cont verbose jobs],
   ReturnAfterDispatch srcFiles destFiles hardlink cont verbose jobs None)
  end end end end end end.

(** [parallelCopy] returns [r] in some execution. *)
Definition parallelCopy_returns (src0 dest0 : string)
    (hardlink recurse useful cont verbose : bool) (jobs : Z) (r : option error) : Prop :=
  match snd (parallelCopy src0 dest0 hardlink recurse useful cont verbose jobs) with
  | Return e => r = e
  | Fatal => False
  | ReturnAfterDispatch srcFiles destFiles link cont' verbose' jobs' e =>
      r = e ∧ ∃ ret, jobDispatcher_returns srcFiles destFiles link cont' verbose' jobs' ret
  end.

(** *** Notions used to state the properties *)

(** Number of non-directory entries in a tree. *)
Fixpoint count_files (n : fsnode) : nat :=
  match n with
  | File => 1
  | Dir entries =>
      (fix each (es : list (string * fsnode)) : nat :=
         match es with
         | [] => 0
         | (_, c) :: es' => count_files c + each es'
         end) entries
  | DirUnreadable => 0
  | NoStat => 0
  end%nat.

(** Every directory of the tree can be listed and every entry examined. *)
Fixpoint readable (n : fsnode) : bool :=
  match n with
  | File => true
  | Dir entries =>
      (fix each (es : list (string * fsnode)) : bool :=
         match es with
         | [] => true
         | (_, c) :: es' => readable c && each es'
         end) entries
  | DirUnreadable => false
  | NoStat => false
  end.

(** Paths of the non-directory entries among the calls of a walk, in the
    order of the calls. *)
Definition file_paths (vs : list visit) : list string :=
  map v_path (filter (λ v, v_isDir v = false) vs).



(** The two lists of the queue are in step: both present with the same
    length, or both nil. *)
Definition queue_ok (jobs : copyJob) : Prop :=
  match src jobs, dest jobs with
  | Some ls, Some ld => length ls = length ld
  | None, None => True
  | _, _ => False
  end.

(** The jobs still in the queue, first to last. *)
Definition paired (sr de : option Stack) : list (string * string) :=
  zip (default [] sr) (default [] de).

Definition pending (jobs : copyJob) : list (string * string) :=
  paired (src jobs) (dest jobs).

(** Results of the copies of a list of jobs: the errors, and whether a job
    is copied without error. *)
Definition errors_of (link : bool) (l : list (string * string)) : list error :=
  omap (λ p, cp_CopyFile p.1 p.2 link) l.

Definition succeeds (link : bool) (p : string * string) : Prop :=
  cp_CopyFile p.1 p.2 link = None.

(** The files copied so far: the calls of [cp.CopyFile] that succeeded. *)
Definition copied (L : locals) (s : state) : list (string * string) :=
  filter (succeeds (l_link L)) (copies s).

(** Counting goroutines and messages. *)
Definition holds (r : routine) : nat :=
  match r with RPop | RDone | RUnlock => 1 | _ => 0 end.

Definition at_done (r : routine) : nat :=
  match r with RDone | RUnlock => 1 | _ => 0 end.

Definition live (r : routine) : nat :=
  match r with RUnlock | RExit => 0 | _ => 1 end.

Definition copying (r : routine) : list (string * string) :=
  match r with RCopy s d => [(s, d)] | _ => [] end.

Definition failed (r : routine) : list error :=
  match r with RFail _ _ e => [e] | _ => [] end.

Definition is_done (m : copyError) : nat :=
  match err m with None => 1 | Some _ => 0 end.

Definition holders (rs : list routine) : nat := sum_list_with holds rs.
Definition waiting (rs : list routine) : nat := sum_list_with at_done rs.
Definition alive (rs : list routine) : nat := sum_list_with live rs.
Definition in_copy (rs : list routine) : list (string * string) := flat_map copying rs.
Definition failing (rs : list routine) : list error := flat_map failed rs.
Definition dones (ch : list copyError) : nat := sum_list_with is_done ch.
Definition chan_errors (ch : list copyError) : list error := omap err ch.

Definition reported (d : dispatcher) : list error :=
  match d with DSpawn _ => [] | DRecv _ ret => ret | DReturn ret => ret end.

Definition total_of (L : locals) (d : dispatcher) : Z :=
  match d with DSpawn _ => l_jobs L | DRecv total _ => total | DReturn _ => 0 end.

Definition unspawned (L : locals) (d : dispatcher) : Z :=
  match d with DSpawn i => l_jobs L - i | _ => 0 end.

Definition returned (d : dispatcher) : bool :=
  match d with DReturn _ => true | _ => false end.

(** What [jobDispatcher_init] guarantees of the fixed variables. *)
Definition locals_ok (L : locals) : Prop :=
  0 ≤ l_jobs L ∧ l_cap L = if l_cont L then l_jobs L * 2 else l_jobs L.

(** The invariant of the executions of [jobDispatcher] on the jobs [all]. *)
Record inv (L : locals) (all : list (string * string)) (s : state) : Prop := Inv {
  inv_lock : holders (routines s) = if mu (copyLock s) then 1%nat else 0%nat;
  inv_queue : queue_ok (copyLock s);
  inv_lifo : all = pending (copyLock s) ++ reverse (map snd (claims s));
  inv_claims : map snd (claims s) ≡ₚ copies s ++ in_copy (routines s);
  inv_errors :
    errors_of (l_link L) (copies s)
    ≡ₚ reported (disp s) ++ chan_errors (errChannel s) ++ failing (routines s);
  inv_failing :
    Forall (λ r, match r with
                 | RFail s0 d0 e => cp_CopyFile s0 d0 (l_link L) = Some e
                 | _ => True
                 end) (routines s);
  inv_total :
    total_of L (disp s)
    = Z.of_nat (alive (routines s)) + Z.of_nat (dones (errChannel s))
      + unspawned L (disp s)
      + (if l_cont L then 0
         else Z.of_nat (length (reported (disp s)))
              + Z.of_nat (length (chan_errors (errChannel s))));
  inv_nonempty :
    src (copyLock s) ≠ None →
    waiting (routines s) = 0%nat ∧ dones (errChannel s) = 0%nat
    ∧ total_of L (disp s) = l_jobs L ∧ returned (disp s) = false;
  inv_last :
    l_cont L = true → alive (routines s) = 0%nat →
    match last (errChannel s) with Some m => err m = None | None => True end;
  inv_spawn :
    match disp s with
    | DSpawn i => 0 ≤ i ≤ l_jobs L ∧ Z.of_nat (length (routines s)) = i
    | DRecv total _ =>
        Z.of_nat (length (routines s)) = l_jobs L ∧ (total = 0 → l_jobs L = 0)
    | DReturn _ => Z.of_nat (length (routines s)) = l_jobs L
    end;
  inv_ids : Forall (λ c, 0 ≤ c.1 < Z.of_nat (length (routines s))) (claims s) }.

(** A bound on the number of actions left: five for each pending job, six
    for each goroutine not yet started, one for each buffered message, and
    for a goroutine the length of its way to the next claim or to its
    return. *)
Definition weight (r : routine) : nat :=
  match r with
  | RExit => 0
  | RUnlock => 1
  | RDone => 3
  | RPop => 4
  | RLock => 5
  | RFail _ _ _ => 7
  | RCopy _ _ => 8
  end.

Definition measure (L : locals) (s : state) : nat :=
  (5 * length (pending (copyLock s))
   + sum_list_with weight (routines s)
   + length (errChannel s)
   + match disp s with
     | DSpawn i => 6 * Z.to_nat (l_jobs L - i) + 1
     | _ => 0
     end)%nat.

(** Pops made one after the other until the pointer is nil or [fuel] pops
    have been made: the strings obtained before the nil pointer, in order. *)
Fixpoint pop_all (fuel : nat) (stk : option Stack) : list string :=
  match fuel with
  | O => []
  | S fuel' =>
      match Pop stk with
      | (_, None) => []
      | (x, Some l) => x :: pop_all fuel' (Some l)
      end
  end.

(** [main] after [flag.Parse], with [debug] off: [verbose] implies
    [useful]; with fewer than two arguments the usage is printed and the
    process exits with status 1; otherwise [parallelCopy] is called on the
    first two arguments, an error it returns is passed to [log.Fatal],
    which exits with status 1, and when it returns nil [main] returns and
    the process exits with status 0.  The relation holds of the statuses
    with which the process can exit. *)
Definition main_exits (link recurse useful cont verbose : bool) (jobs : Z)
    (args : list string) (status : Z) : Prop :=
  let useful := if verbose then true else useful in
  match args with
  | src0 :: dest0 :: _ =>
      match snd (parallelCopy src0 dest0 link recurse useful cont verbose jobs) with
      | Fatal => status = 1
      | _ =>
          ∃ r, parallelCopy_returns src0 dest0 link recurse useful cont verbose jobs r
               ∧ status = match r with Some _ => 1 | None => 0 end
      end
  | _ => status = 1
  end.

(** * Properties *)

(** ** Strings as byte sequences *)

Lemma bytes_inj s t : list_ascii_of_string s = list_ascii_of_string t → s = t.
Proof.
  intros H.
  rewrite <- (string_of_list_ascii_of_string s), <- (string_of_list_ascii_of_string t).
  by rewrite H.
Qed.

Lemma bytes_app s t :
  list_ascii_of_string (s +:+ t) = list_ascii_of_string s ++ list_ascii_of_string t.
Proof. induction s as [|a s IH]; [done|]. cbn. by rewrite <- IH. Qed.

Lemma bytes_length s : String.length s = length (list_ascii_of_string s).
Proof. induction s; cbn; auto. Qed.

Lemma bytes_substring n m s :
  list_ascii_of_string (substring n m s) = take m (drop n (list_ascii_of_string s)).
Proof.
  revert n m. induction s as [|a s IH]; intros [|n] [|m]; cbn; try done.
  all: by rewrite IH.
Qed.

Lemma string_app_assoc (a b c : string) : (a +:+ b) +:+ c = a +:+ b +:+ c.
Proof. apply bytes_inj. rewrite !bytes_app. by rewrite app_assoc. Qed.

Lemma string_app_nil_r (a : string) : a +:+ EmptyString = a.
Proof. apply bytes_inj. rewrite bytes_app. cbn. by rewrite app_nil_r. Qed.


Lemma HasPrefix_spec s p : HasPrefix s p = true ↔ ∃ r, s = p +:+ r.
Proof.
  unfold HasPrefix. rewrite andb_true_iff, Nat.leb_le, String.eqb_eq. split.
  - intros [Hlen Hsub].
    exists (substring (String.length p) (String.length s - String.length p) s).
    apply bytes_inj. apply (f_equal list_ascii_of_string) in Hsub.
    rewrite bytes_substring, drop_0 in Hsub.
    rewrite bytes_app, bytes_substring, <- Hsub at 1.
    rewrite (take_ge (drop (String.length p) _)).
    2:{ rewrite length_drop, <- !bytes_length. lia. }
    by rewrite take_drop.
  - intros [r ->]. split.
    + rewrite !bytes_length, bytes_app, length_app. lia.
    + apply bytes_inj. rewrite bytes_substring, bytes_app, bytes_length, drop_0.
      by rewrite take_app_length.
Qed.

Lemma HasSuffix_spec s suf : HasSuffix s suf = true ↔ ∃ p, s = p +:+ suf.
Proof.
  unfold HasSuffix. rewrite andb_true_iff, Nat.leb_le, String.eqb_eq. split.
  - intros [Hlen Hsub].
    exists (substring 0 (String.length s - String.length suf) s).
    apply bytes_inj. apply (f_equal list_ascii_of_string) in Hsub.
    rewrite bytes_substring in Hsub.
    rewrite bytes_app, bytes_substring, drop_0, <- Hsub at 1.
    rewrite (take_ge (drop _ _)).
    2:{ rewrite length_drop, <- !bytes_length. lia. }
    by rewrite take_drop.
  - intros [p ->]. split.
    + rewrite !bytes_length, bytes_app, length_app. lia.
    + apply bytes_inj. rewrite bytes_substring, !bytes_length, !bytes_app, length_app.
      replace (length (list_ascii_of_string p) + length (list_ascii_of_string suf)
               - length (list_ascii_of_string suf))%nat
        with (length (list_ascii_of_string p)) by lia.
      rewrite drop_app_length. by rewrite take_ge.
Qed.

Lemma HasSuffix_app s suf : HasSuffix (s +:+ suf) suf = true.
Proof. apply HasSuffix_spec. eauto. Qed.




(** ** Roots and joined paths *)

Lemma Join_pair a b : Join [a; b] EmptyString = a +:+ b.
Proof. reflexivity. Qed.

Lemma slash_cases root :
  (HasSuffix root "/" = true ∧ slash root = root)
  ∨ (HasSuffix root "/" = false ∧ slash root = root +:+ "/").
Proof. unfold slash. destruct (HasSuffix root "/"); cbn; auto. Qed.

Lemma slash_HasSuffix root : HasSuffix (slash root) "/" = true.
Proof.
  destruct (slash_cases root) as [[H ->]|[_ ->]]; [done|]. apply HasSuffix_app.
Qed.


Lemma slash_nonempty root : slash root ≠ EmptyString.
Proof.
  intros H. pose proof (slash_HasSuffix root) as Hs. rewrite H in Hs. discriminate.
Qed.



(** ** The tree walk *)

Lemma fsnode_tree_ind (P : fsnode → Prop) :
  P File → P DirUnreadable → P NoStat →
  (∀ entries, Forall (λ e, P e.2) entries → P (Dir entries)) →
  ∀ n, P n.
Proof.
  intros HF HU HN HD. fix IH 1. intros [|entries| |]; [exact HF| |exact HU|exact HN].
  apply HD. induction entries as [|[name c] es IHes]; constructor; [apply IH|exact IHes].
Qed.

Lemma walk_Dir path entries :
  walk path (Dir entries)
  = Visit path true false
      :: flat_map (λ e, walk (filepath_Join path e.1) e.2) entries.
Proof.
  cbn [walk]. f_equal.
  induction entries as [|[name c] es IH]; [done|]. cbn [flat_map]. by rewrite <- IH.
Qed.

Lemma count_files_Dir entries :
  count_files (Dir entries) = sum_list_with (λ e, count_files e.2) entries.
Proof.
  cbn [count_files].
  induction entries as [|[name c] es IH]; [done|]. cbn [sum_list_with]. by rewrite <- IH.
Qed.

Lemma readable_Dir entries :
  readable (Dir entries) = true ↔ Forall (λ e, readable e.2 = true) entries.
Proof.
  cbn [readable].
  induction entries as [|[name c] es IH]; [by split|].
  rewrite andb_true_iff, Forall_cons, IH. done.
Qed.

Lemma file_paths_app vs ws : file_paths (vs ++ ws) = file_paths vs ++ file_paths ws.
Proof. unfold file_paths. by rewrite filter_app, map_app. Qed.

Lemma file_paths_cons_dir v vs : v_isDir v = true → file_paths (v :: vs) = file_paths vs.
Proof. intros H. unfold file_paths. rewrite filter_cons_False; [done|]. by rewrite H. Qed.

Lemma file_paths_cons_file v vs :
  v_isDir v = false → file_paths (v :: vs) = v_path v :: file_paths vs.
Proof. intros H. unfold file_paths. by rewrite filter_cons_True. Qed.

Lemma walk_readable path n :
  readable n = true → Forall (λ v, v_err v = false) (walk path n).
Proof.
  revert path. induction n as [| | |entries IH] using fsnode_tree_ind;
    intros path Hr; try done; [by repeat constructor|].
  rewrite walk_Dir. constructor; [done|].
  apply readable_Dir in Hr. apply Forall_flat_map.
  rewrite Forall_forall in IH, Hr. apply Forall_forall. intros e He.
  apply IH; auto.
Qed.

Lemma walk_count_files path n :
  readable n = true → length (file_paths (walk path n)) = count_files n.
Proof.
  revert path. induction n as [| | |entries IH] using fsnode_tree_ind;
    intros path Hr; try done.
  rewrite walk_Dir, count_files_Dir, file_paths_cons_dir by done.
  apply readable_Dir in Hr.
  induction entries as [|e es IHes]; [done|].
  apply Forall_cons in IH as [IHe IH]. apply Forall_cons in Hr as [Hre Hr].
  cbn [flat_map sum_list_with]. rewrite file_paths_app, length_app.
  rewrite IHe by done. f_equal. by apply IHes.
Qed.

Lemma walk_calls_countFiles vs count :
  Forall (λ v, v_err v = false) vs →
  walk_calls countFiles vs count = Some (count + Z.of_nat (length (file_paths vs))).
Proof.
  intros H. revert count. induction H as [|v vs Hv _ IH]; intros count.
  - cbn. f_equal. lia.
  - cbn [walk_calls]. unfold countFiles at 1. rewrite Hv.
    destruct (v_isDir v) eqn:Hd.
    + rewrite file_paths_cons_dir by done. apply IH.
    + rewrite file_paths_cons_file by done. rewrite IH. f_equal. cbn [length]. lia.
Qed.

Lemma walk_calls_visitDirectory vs (files : Stack) :
  Forall (λ v, v_err v = false) vs →
  walk_calls visitDirectory vs (Some files) = Some (Some (files ++ file_paths vs)).
Proof.
  intros H. revert files. induction H as [|v vs Hv _ IH]; intros files.
  - cbn. by rewrite app_nil_r.
  - cbn [walk_calls]. unfold visitDirectory at 1. rewrite Hv.
    destruct (v_isDir v) eqn:Hd.
    + rewrite file_paths_cons_dir by done. apply IH.
    + rewrite file_paths_cons_file by done. cbn [Push]. rewrite IH.
      by rewrite <- app_assoc.
Qed.




(** ** Tree enumeration *)

Lemma HasPrefix_app p r : HasPrefix (p +:+ r) p = true.
Proof. apply HasPrefix_spec. eauto. Qed.

Lemma HasPrefix_refl s : HasPrefix s s = true.
Proof. apply HasPrefix_spec. exists EmptyString. by rewrite string_app_nil_r. Qed.

Lemma HasPrefix_trans a b c :
  HasPrefix b a = true → HasPrefix c b = true → HasPrefix c a = true.
Proof.
  rewrite !HasPrefix_spec. intros [r ->] [r' ->]. exists (r +:+ r').
  by rewrite string_app_assoc.
Qed.

Lemma filepath_Join_prefix dir name : HasPrefix (filepath_Join dir name) dir = true.
Proof.
  unfold filepath_Join. destruct (String.eqb_spec dir EmptyString) as [->|_]; [by destruct name|].
  destruct (HasSuffix dir "/"); apply HasPrefix_app.
Qed.

Lemma walk_under_root path n :
  Forall (λ v, HasPrefix (v_path v) path = true) (walk path n).
Proof.
  revert path. induction n as [| | |entries IH] using fsnode_tree_ind; intros path;
    try (by repeat constructor; apply HasPrefix_refl).
  rewrite walk_Dir. constructor; [apply HasPrefix_refl|].
  apply Forall_flat_map. rewrite Forall_forall in IH. apply Forall_forall. intros e He.
  eapply Forall_impl; [by apply IH|]. cbn. intros v Hv.
  eapply HasPrefix_trans; [apply filepath_Join_prefix|done].
Qed.

Lemma enumeration_spec (root : string) :
  readable (fs root) = true →
  filepath_Walk root countFiles 0 = Some (Z.of_nat (count_files (fs root)))
  ∧ recurseFileTree root [] = Some (file_paths (walk root (fs root)))
  ∧ length (file_paths (walk root (fs root))) = count_files (fs root).
Proof.
  intros Hr. pose proof (walk_readable root _ Hr) as Hok.
  repeat split.
  - unfold filepath_Walk. rewrite walk_calls_countFiles by done.
    rewrite walk_count_files by done. f_equal.
  - unfold recurseFileTree, filepath_Walk. by rewrite walk_calls_visitDirectory.
  - by apply walk_count_files.
Qed.

(** C9: on a tree that can be read, the counting walk yields the number of
    non-directory entries of the tree, the listing walk yields a list of
    that length, and the list holds the paths of exactly the calls of the
    walk made on non-directories, in the order of the walk (the entry first,
    then its entries in turn); every listed path belongs to a call whose
    entry is not a directory, and starts with the root. *)
Theorem enumeration_counts_and_lists_files (root : string) :
  readable (fs root) = true →
  filepath_Walk root countFiles 0 = Some (Z.of_nat (count_files (fs root)))
  ∧ recurseFileTree root [] = Some (file_paths (walk root (fs root)))
  ∧ length (file_paths (walk root (fs root))) = count_files (fs root)
  ∧ (∀ p, p ∈ file_paths (walk root (fs root)) →
          HasPrefix p root = true
          ∧ ∃ v, v ∈ walk root (fs root) ∧ v_path v = p ∧ v_isDir v = false).
Proof.
  intros Hr. destruct (enumeration_spec root Hr) as (Hc & Hl & Hlen).
  do 3 (split; [done|]).
  intros p Hp. unfold file_paths in Hp.
  apply list_elem_of_fmap in Hp as (v & -> & Hv).
  apply list_elem_of_filter in Hv as [Hd Hv]. split; [|by eauto].
  pose proof (walk_under_root root (fs root)) as Hu.
  rewrite Forall_forall in Hu. by apply Hu.
Qed.

(** ** Path mapping *)




(** ** The queue *)

Lemma Pop_snoc (l : Stack) (x : string) : Pop (Some (l ++ [x])) = (x, Some l).
Proof.
  unfold Pop. rewrite length_app. cbn [length].
  replace (length l + 1 =? 0)%nat with false by (symmetry; apply Nat.eqb_neq; lia).
  replace (length l + 1 - 1)%nat with (length l) by lia.
  rewrite app_nth2 by lia. rewrite Nat.sub_diag. cbn [nth].
  by rewrite take_app_length.
Qed.

Lemma claim_snoc m (ls ld : Stack) s d :
  claim (CopyJob m (Some (ls ++ [s])) (Some (ld ++ [d])))
  = (Some (s, d), CopyJob m (Some ls) (Some ld)).
Proof. unfold claim. cbn [src dest mu]. by rewrite !Pop_snoc. Qed.

Lemma claim_empty m : claim (CopyJob m (Some []) (Some [])) = (None, CopyJob m None None).
Proof. reflexivity. Qed.

Lemma claim_nil m : claim (CopyJob m None None) = (None, CopyJob m None None).
Proof. reflexivity. Qed.

Lemma queue_ok_cases m sr de :
  queue_ok (CopyJob m sr de) →
  (∃ ls ld s d, sr = Some (ls ++ [s]) ∧ de = Some (ld ++ [d]) ∧ length ls = length ld)
  ∨ (sr = Some [] ∧ de = Some [])
  ∨ (sr = None ∧ de = None).
Proof.
  destruct sr as [ls|], de as [ld|]; unfold queue_ok; cbn; try done; [|auto].
  destruct ls as [|s ls _] using rev_ind; destruct ld as [|d ld _] using rev_ind;
    rewrite ?length_app; cbn; intros H; try lia; [auto|].
  left. exists ls, ld, s, d. repeat split. lia.
Qed.

Lemma paired_snoc (ls ld : Stack) s d :
  length ls = length ld →
  paired (Some (ls ++ [s])) (Some (ld ++ [d])) = paired (Some ls) (Some ld) ++ [(s, d)].
Proof. intros H. unfold paired. cbn. by rewrite zip_with_app. Qed.

Lemma last_tail_done (m : copyError) ch :
  match last (m :: ch) with Some m' => err m' = None | None => True end →
  match last ch with Some m' => err m' = None | None => True end.
Proof. destruct ch; [done|]. by rewrite last_cons_cons. Qed.

(** ** The invariant of the dispatcher and its goroutines *)

Lemma insert_middle {A} (l : list A) (i : nat) (x : A) :
  l !! i = Some x →
  ∃ l1 l2, l = l1 ++ x :: l2 ∧ i = length l1 ∧ ∀ y, <[i:=y]> l = l1 ++ y :: l2.
Proof.
  intros (l1 & l2 & -> & ->)%list_elem_of_split_length.
  exists l1, l2. do 2 (split; [done|]). intros y.
  by rewrite insert_app_r_alt, Nat.sub_diag.
Qed.

Section Aggregates.

Context {A B : Type}.

Lemma sum_list_with_cons (f : A → nat) (x : A) (l : list A) :
  sum_list_with f (x :: l) = (f x + sum_list_with f l)%nat.
Proof. reflexivity. Qed.

Lemma flat_map_cons (f : A → list B) (x : A) (l : list A) :
  flat_map f (x :: l) = f x ++ flat_map f l.
Proof. reflexivity. Qed.

End Aggregates.

Lemma chan_errors_nil : chan_errors [] = [].
Proof. reflexivity. Qed.

Lemma errors_of_nil link : errors_of link [] = [].
Proof. reflexivity. Qed.

Lemma chan_errors_snoc ch m :
  chan_errors (ch ++ [m]) = chan_errors ch ++ match err m with Some e => [e] | None => [] end.
Proof. unfold chan_errors. rewrite omap_app. cbn. by destruct (err m). Qed.

Lemma chan_errors_cons ch m :
  chan_errors (m :: ch) = match err m with Some e => [e] | None => [] end ++ chan_errors ch.
Proof. unfold chan_errors. cbn. by destruct (err m). Qed.

Lemma errors_of_snoc link l p :
  errors_of link (l ++ [p])
  = errors_of link l ++ match cp_CopyFile p.1 p.2 link with Some e => [e] | None => [] end.
Proof. unfold errors_of. rewrite omap_app. cbn. by destruct (cp_CopyFile _ _ _). Qed.

Ltac agg :=
  unfold holders, waiting, alive, in_copy, failing, dones, pending in *;
  cbn [mu src dest copyLock errChannel routines disp copies claims
       reported total_of unspawned returned
       l_cont l_link l_verbose l_jobs l_cap] in *;
  repeat (progress (
    rewrite ?sum_list_with_app, ?sum_list_with_cons, ?flat_map_app, ?flat_map_cons,
            ?chan_errors_snoc, ?chan_errors_cons, ?errors_of_snoc,
            ?chan_errors_nil, ?errors_of_nil,
            ?length_app, ?map_app, ?reverse_app, ?last_snoc,
            ?Forall_app, ?Forall_cons in *;
    cbn [holds at_done live copying failed is_done weight
         sum_list_with flat_map map length app reverse rev_append
         fst snd err id e_src e_dest] in *));
  cbn [from_option id] in *.

Ltac fin :=
  rewrite ?app_nil_r in *;
  repeat match goal with
  | |- _ → _ => intro
  | H : ?P → _, H' : ?P |- _ => specialize (H H')
  | H : _ ∧ _ |- _ => destruct H
  | |- _ ∧ _ => split
  end;
  try done;
  try lia;
  try (exfalso; lia);
  try (destruct (l_cont _); lia);
  try (eapply Forall_impl; [eassumption|]; cbn; intros; lia);
  try (match goal with
       | H : context [if ?b then _ else _] |- _ => destruct b; lia
       end);
  try (match goal with
       | H : ?a ≡ₚ _ |- context [?a] => rewrite H; solve_Permutation
       end);
  try (eapply last_tail_done; eauto; fail).

Lemma inv_init (L : locals) (src0 dest0 : Stack) :
  locals_ok L → length src0 = length dest0 →
  inv L (zip src0 dest0)
      (State (CopyJob false (Some src0) (Some dest0)) [] [] (DSpawn 0) [] []).
Proof.
  intros [Hj Hc] Hlen. split; agg; fin.
Qed.

Lemma inv_step (L : locals) (all : list (string * string)) (s s' : state) (t : thread) :
  locals_ok L → inv L all s → step L s t = Some s' → inv L all s'.
Proof.
  clear os_Lstat fs cp_AbsolutePath.
  intros [Hj Hcap] [Hlock Hq Hlifo Hcl Herr Hfl Htot Hne Hlast Hsp Hids] Hstep.
  destruct s as [[m sr de] ch rs d cps cls]. destruct t as [|i]; cbn [step] in Hstep.
  - (* the dispatcher *)
    unfold jobDispatcher_step in Hstep. agg.
    destruct d as [k|total ret|ret]; [| |done].
    + destruct (k <? l_jobs L) eqn:Hk; injection Hstep as <-.
      * apply Z.ltb_lt in Hk. split; agg; fin.
      * apply Z.ltb_ge in Hk. split; agg; fin.
    + destruct ch as [|msg ch]; [done|].
      destruct (err msg) as [e|] eqn:He.
      * assert (Hd : is_done msg = 0%nat) by (unfold is_done; by rewrite He).
        injection Hstep as <-.
        split; agg; rewrite ?He, ?Hd in *; agg; fin.
      * assert (Hd : is_done msg = 1%nat) by (unfold is_done; by rewrite He).
        injection Hstep as <-.
        destruct (total - 1 =? 0) eqn:Ht.
        -- apply Z.eqb_eq in Ht. split; agg; rewrite ?He, ?Hd in *; agg; fin.
        -- apply Z.eqb_neq in Ht. split; agg; rewrite ?He, ?Hd in *; agg; fin.
  - (* goroutine [i] *)
    cbn [routines] in Hstep.
    destruct (rs !! i) as [pc|] eqn:Hi; [|done].
    destruct (insert_middle _ _ _ Hi) as (l1 & l2 & -> & -> & Hins).
    unfold copyRoutine, full in Hstep. clear Hi.
    cbn [mu src dest copyLock errChannel routines disp copies claims] in *.
    destruct pc as [| | | |s0 d0|s0 d0 e|].
    + (* Lock *)
      destruct m; [done|]. injection Hstep as <-.
      split; rewrite ?Hins; agg; fin.
    + (* the claim *)
      destruct (queue_ok_cases _ _ _ Hq) as
        [(ls & ld & s0 & d0 & -> & -> & Hlen)|[[-> ->]|[-> ->]]].
      * rewrite claim_snoc in Hstep. injection Hstep as <-.
        unfold pending in Hlifo. cbn [src dest] in Hlifo.
        rewrite paired_snoc, <- app_assoc in Hlifo by done.
        specialize (Hne ltac:(done)).
        split; rewrite ?Hins; agg; fin.
      * rewrite claim_empty in Hstep. injection Hstep as <-.
        specialize (Hne ltac:(done)).
        split; rewrite ?Hins; agg; fin.
      * rewrite claim_nil in Hstep. injection Hstep as <-.
        split; rewrite ?Hins; agg; fin.
    + (* the completion message *)
      destruct (l_cap L <=? Z.of_nat (length ch)) eqn:Hfull; [done|].
      injection Hstep as <-.
      split; rewrite ?Hins; agg; fin.
    + (* Unlock *)
      injection Hstep as <-.
      split; rewrite ?Hins; agg; fin.
    + (* CopyFile *)
      destruct (cp_CopyFile s0 d0 (l_link L)) as [e|] eqn:Hcf; injection Hstep as <-.
      * split; rewrite ?Hins; agg; rewrite ?Hcf in *; fin.
      * split; rewrite ?Hins; agg; rewrite ?Hcf in *; fin.
    + (* the failure message *)
      destruct (l_cap L <=? Z.of_nat (length ch)) eqn:Hfull; [done|].
      injection Hstep as <-.
      destruct (l_cont L) eqn:Hcont.
      * split; rewrite ?Hins; agg; rewrite ?Hcont in *; fin.
      * split; rewrite ?Hins; agg; rewrite ?Hcont in *; fin.
    + done.
Qed.

Lemma jobDispatcher_init_inv (src0 dest0 : Stack) link cont verbose jobs L s0 :
  jobDispatcher_init src0 dest0 link cont verbose jobs = Some (L, s0) →
  locals_ok L
  ∧ l_cont L = cont ∧ l_link L = link
  ∧ l_jobs L = (if jobs >? Z.of_nat (length src0) then Z.of_nat (length src0) else jobs)
  ∧ s0 = State (CopyJob false (Some src0) (Some dest0)) [] [] (DSpawn 0) [] [].
Proof.
  unfold jobDispatcher_init.
  set (j := if jobs >? Z.of_nat (length src0) then Z.of_nat (length src0) else jobs).
  destruct ((if cont then j * 2 else j) <? 0) eqn:Hc; [done|].
  apply Z.ltb_ge in Hc. intros [= <- <-]. unfold locals_ok. cbn.
  repeat split. destruct cont; lia.
Qed.

Lemma inv_reachable (L : locals) (src0 dest0 : Stack) (s0 s : state) :
  locals_ok L → length src0 = length dest0 →
  s0 = State (CopyJob false (Some src0) (Some dest0)) [] [] (DSpawn 0) [] [] →
  reachable L s0 s → inv L (zip src0 dest0) s.
Proof.
  intros HL Hlen -> Hr. induction Hr as [|s t s' _ IH Hstep].
  - by apply inv_init.
  - by eapply inv_step.
Qed.

(** *** Every action brings the end nearer *)

Lemma step_measure (L : locals) (all : list (string * string)) (s s' : state) (t : thread) :
  inv L all s → step L s t = Some s' → (measure L s' < measure L s)%nat.
Proof.
  intros [_ Hq _ _ _ _ _ _ _ Hsp _] Hstep.
  destruct s as [[m sr de] ch rs d cps cls]. destruct t as [|i]; cbn [step] in Hstep.
  - unfold jobDispatcher_step in Hstep. unfold measure.
    cbn [mu src dest copyLock errChannel routines disp copies claims] in *.
    destruct d as [k|total ret|ret]; [| |done].
    + destruct (k <? l_jobs L) eqn:Hk; injection Hstep as <-; cbn.
      * apply Z.ltb_lt in Hk. rewrite sum_list_with_app. cbn. lia.
      * lia.
    + destruct ch as [|msg ch]; [done|].
      destruct (err msg); [|destruct (total - 1 =? 0)];
        injection Hstep as <-; cbn; lia.
  - cbn [routines] in Hstep.
    destruct (rs !! i) as [pc|] eqn:Hi; [|done].
    destruct (insert_middle _ _ _ Hi) as (l1 & l2 & -> & -> & Hins).
    unfold copyRoutine, full in Hstep. unfold measure. clear Hi.
    cbn [mu src dest copyLock errChannel routines disp copies claims] in *.
    destruct pc as [| | | |s0 d0|s0 d0 e|].
    + destruct m; [done|]. injection Hstep as <-. rewrite ?Hins. agg. lia.
    + destruct (queue_ok_cases _ _ _ Hq) as
        [(ls & ld & s0 & d0 & -> & -> & Hlen)|[[-> ->]|[-> ->]]].
      * rewrite claim_snoc in Hstep. injection Hstep as <-.
        rewrite ?Hins. agg. rewrite paired_snoc by done. agg. lia.
      * rewrite claim_empty in Hstep. injection Hstep as <-. rewrite ?Hins. agg.
        cbn. lia.
      * rewrite claim_nil in Hstep. injection Hstep as <-. rewrite ?Hins. agg. lia.
    + destruct (l_cap L <=? Z.of_nat (length ch)) eqn:Hfull; [done|].
      injection Hstep as <-. rewrite ?Hins. agg. lia.
    + injection Hstep as <-. rewrite ?Hins. agg. lia.
    + destruct (cp_CopyFile s0 d0 (l_link L)); injection Hstep as <-;
        rewrite ?Hins; agg; lia.
    + destruct (l_cap L <=? Z.of_nat (length ch)) eqn:Hfull; [done|].
      injection Hstep as <-. rewrite ?Hins. destruct (l_cont L); agg; lia.
    + done.
Qed.

(** *** A goroutine or the dispatcher can act *)

Lemma sum_list_with_pos {A} (f : A → nat) (l : list A) :
  (0 < sum_list_with f l)%nat → ∃ i x, l !! i = Some x ∧ (0 < f x)%nat.
Proof.
  induction l as [|a l IH]; cbn; [lia|]. intros H.
  destruct (decide (0 < f a)%nat) as [Ha|Ha].
  - by exists 0%nat, a.
  - destruct IH as (i & x & Hi & Hx); [lia|]. by exists (S i), x.
Qed.

Lemma sum_list_with_zero {A} (f : A → nat) (l : list A) :
  sum_list_with f l = 0%nat → Forall (λ x, f x = 0%nat) l.
Proof.
  induction l as [|a l IH]; cbn; [constructor|]. intros H.
  constructor; [lia|]. apply IH. lia.
Qed.

Lemma routine_can_act (L : locals) (all : list (string * string)) (s : state) :
  inv L all s → errChannel s = [] → 1 ≤ l_cap L →
  (0 < alive (routines s))%nat →
  ∃ i s', step L s (Routine i) = Some s'.
Proof.
  intros [Hlock _ _ _ _ _ _ _ _ _ _] Hch Hcap Hal.
  destruct s as [[m sr de] ch rs d cps cls].
  cbn [mu src dest copyLock errChannel routines disp copies claims] in *. subst ch.
  assert (Hfull : ∀ x, full L (State x [] rs d cps cls) = false).
  { intros x. unfold full. cbn. apply Z.leb_gt. lia. }
  assert (Hholder : ∀ j r, rs !! j = Some r → (0 < holds r)%nat →
            ∃ s', step L (State (CopyJob m sr de) [] rs d cps cls) (Routine j) = Some s').
  { intros j r Hj Hr. cbn [step routines]. rewrite Hj.
    destruct r; cbn in Hr; try lia; unfold copyRoutine; rewrite ?Hfull.
    - cbn [copyLock]. destruct (claim _) as [[[??]|] ?]; eauto.
    - eauto.
    - eauto. }
  apply sum_list_with_pos in Hal as (i & r & Hi & Hr).
  destruct r as [| | | |s0 d0|s0 d0 e|]; cbn in Hr; try lia.
  - destruct m.
    + destruct (sum_list_with_pos holds rs) as (j & r & Hj & Hr'); [unfold holders in Hlock; lia|].
      exists j. eauto.
    + exists i. cbn [step routines]. rewrite Hi. unfold copyRoutine. cbn. eauto.
  - exists i. eapply Hholder; eauto.
  - exists i. eapply Hholder; eauto.
  - exists i. cbn [step routines]. rewrite Hi. unfold copyRoutine.
    destruct (cp_CopyFile _ _ _); eauto.
  - exists i. cbn [step routines]. rewrite Hi. unfold copyRoutine. rewrite Hfull. eauto.
Qed.

Lemma dispatcher_can_act (L : locals) (s : state) :
  returned (disp s) = false →
  (∃ i, disp s = DSpawn i) ∨ errChannel s ≠ [] →
  ∃ s', step L s Dispatcher = Some s'.
Proof.
  intros Hret H. cbn [step]. unfold jobDispatcher_step.
  destruct (disp s) as [k|total ret|ret]; [| |done].
  - destruct (k <? l_jobs L); eauto.
  - destruct H as [[i ?]|H]; [done|].
    destruct (errChannel s) as [|msg ch]; [done|]. destruct (err msg); eauto.
Qed.

Lemma progress (L : locals) (all : list (string * string)) (s : state) :
  locals_ok L → 1 ≤ l_jobs L → l_cont L = true →
  inv L all s → returned (disp s) = false →
  ∃ t s', step L s t = Some s'.
Proof.
  intros [Hj Hcap] Hjobs Hcont Hinv Hret.
  pose proof (inv_total _ _ _ Hinv) as Htot. pose proof (inv_spawn _ _ _ Hinv) as Hsp.
  rewrite Hcont in Htot, Hcap.
  destruct (disp s) as [k|total ret|ret] eqn:Hd; [| |done].
  - exists Dispatcher. apply dispatcher_can_act; [by rewrite Hd|]. rewrite Hd. eauto.
  - destruct (errChannel s) as [|msg ch] eqn:Hch.
    + cbn in Htot. destruct (routine_can_act L all s) as (i & s' & Hs); eauto; [lia|].
      destruct Hsp as [_ Hz]. cbn in Htot. lia.
    + exists Dispatcher. apply dispatcher_can_act; [by rewrite Hd|]. rewrite Hch. by right.
Qed.

(** *** What holds when the dispatcher returns *)

Lemma dones_last ch m : last ch = Some m → err m = None → (0 < dones ch)%nat.
Proof.
  intros (ch' & ->)%last_Some He. unfold dones. rewrite sum_list_with_app. cbn.
  unfold is_done at 2. rewrite He. lia.
Qed.

Lemma length_channel ch : length ch = (dones ch + length (chan_errors ch))%nat.
Proof.
  induction ch as [|m ch IH]; [done|]. rewrite chan_errors_cons. unfold dones in *.
  cbn [sum_list_with length]. unfold is_done at 1. destruct (err m); cbn; lia.
Qed.

Lemma all_exited rs :
  alive rs = 0%nat →
  Forall (λ r, r = RUnlock ∨ r = RExit) rs ∧ in_copy rs = [] ∧ failing rs = [].
Proof.
  intros H. apply sum_list_with_zero in H.
  induction H as [|r rs Hr _ (IH1 & IH2 & IH3)]; [done|].
  destruct r; try done; (repeat split; [constructor; auto|done..]).
Qed.

Lemma inv_returned (L : locals) (all : list (string * string)) (s : state) ret :
  inv L all s → disp s = DReturn ret →
  errChannel s = []
  ∧ Forall (λ r, r = RUnlock ∨ r = RExit) (routines s)
  ∧ Z.of_nat (length (routines s)) = l_jobs L
  ∧ pending (copyLock s) = []
  ∧ all ≡ₚ copies s
  ∧ errors_of (l_link L) (copies s) ≡ₚ ret
  ∧ (l_cont L = false → ret = []).
Proof.
  intros [Hlock Hq Hlifo Hcl Herr Hfl Htot Hne Hlast Hsp Hids] Hd.
  rewrite Hd in *. cbn [total_of unspawned reported returned] in *.
  assert (Hal : alive (routines s) = 0%nat) by (destruct (l_cont L); lia).
  assert (Hdn : dones (errChannel s) = 0%nat) by (destruct (l_cont L); lia).
  destruct (all_exited _ Hal) as (Hex & Hic & Hfg).
  assert (Hch : errChannel s = []).
  { destruct (l_cont L) eqn:Hcont.
    - specialize (Hlast eq_refl Hal).
      destruct (last (errChannel s)) as [m|] eqn:Hl; [|by apply last_None].
      pose proof (dones_last _ _ Hl Hlast). lia.
    - apply length_zero_iff_nil. rewrite length_channel. lia. }
  assert (Hsrc : src (copyLock s) = None).
  { destruct (src (copyLock s)) eqn:Hs; [|done]. by destruct Hne as (_ & _ & _ & ?). }
  assert (Hp : pending (copyLock s) = []).
  { unfold pending, paired. rewrite Hsrc. done. }
  rewrite Hp, Hic, Hfg, Hch, ?app_nil_r in *. cbn [app] in *.
  repeat split; try done.
  - rewrite Hlifo, reverse_Permutation, Hcl. done.
  - intros Hcont. rewrite Hcont in Htot. apply length_zero_iff_nil. lia.
Qed.

(** ** The job queue *)

Lemma sole_holder (rs : list routine) (i j : nat) (r r' : routine) :
  holders rs = 1%nat → rs !! i = Some r → holds r = 1%nat →
  rs !! j = Some r' → j ≠ i → holds r' = 0%nat.
Proof.
  intros Hh Hi Hr Hj Hne.
  destruct (insert_middle _ _ _ Hi) as (l1 & l2 & -> & -> & _).
  unfold holders in Hh. rewrite sum_list_with_app, sum_list_with_cons in Hh.
  assert (H1 : sum_list_with holds l1 = 0%nat) by lia.
  assert (H2 : sum_list_with holds l2 = 0%nat) by lia.
  apply sum_list_with_zero in H1, H2. rewrite Forall_forall in H1, H2.
  destruct (decide (j < length l1)%nat) as [Hlt|Hge].
  - rewrite lookup_app_l in Hj by done. apply H1. by eapply list_elem_of_lookup_2.
  - rewrite lookup_app_r in Hj by lia.
    destruct (j - length l1)%nat as [|k] eqn:Hk; [lia|]. cbn in Hj.
    apply H2. by eapply list_elem_of_lookup_2.
Qed.

Lemma claim_spec (jobs : copyJob) :
  queue_ok jobs →
  queue_ok (claim jobs).2 ∧ mu (claim jobs).2 = mu jobs
  ∧ match (claim jobs).1 with
    | None =>
        pending jobs = [] ∧ src (claim jobs).2 = None ∧ dest (claim jobs).2 = None
    | Some (s, d) =>
        ∃ ls ld, src jobs = Some (ls ++ [s]) ∧ dest jobs = Some (ld ++ [d])
                 ∧ src (claim jobs).2 = Some ls ∧ dest (claim jobs).2 = Some ld
                 ∧ length ls = length ld
    end.
Proof.
  destruct jobs as [m sr de]. intros Hq.
  destruct (queue_ok_cases _ _ _ Hq) as
    [(ls & ld & s0 & d0 & -> & -> & Hlen)|[[-> ->]|[-> ->]]].
  - rewrite claim_snoc. cbn. repeat split; [done|]. by exists ls, ld.
  - rewrite claim_empty. by cbn.
  - rewrite claim_nil. by cbn.
Qed.

(** C6: in every execution of the dispatcher on two lists of equal length,
    the two lists of the queue are in step, and a claim on the queue either
    reports it empty, by the nil pointer it leaves in [src] and not by the
    strings it returns, or returns the last path of each list and leaves
    each list without that one path; the lists stay in step and the mutex
    is untouched by the pops.  A goroutine making a claim holds the mutex
    and is the only goroutine between [Lock] and [Unlock]. *)
Theorem claim_takes_tail_under_lock (src0 dest0 : Stack) link cont verbose jobs L s0 s :
  length src0 = length dest0 →
  jobDispatcher_init src0 dest0 link cont verbose jobs = Some (L, s0) →
  reachable L s0 s →
  queue_ok (copyLock s)
  ∧ queue_ok (claim (copyLock s)).2
  ∧ mu (claim (copyLock s)).2 = mu (copyLock s)
  ∧ match (claim (copyLock s)).1 with
    | None =>
        pending (copyLock s) = []
        ∧ src (claim (copyLock s)).2 = None ∧ dest (claim (copyLock s)).2 = None
    | Some (s1, d1) =>
        ∃ ls ld, src (copyLock s) = Some (ls ++ [s1])
                 ∧ dest (copyLock s) = Some (ld ++ [d1])
                 ∧ src (claim (copyLock s)).2 = Some ls
                 ∧ dest (claim (copyLock s)).2 = Some ld
                 ∧ length ls = length ld
    end
  ∧ ∀ i, routines s !! i = Some RPop →
         mu (copyLock s) = true
         ∧ ∀ j r, j ≠ i → routines s !! j = Some r →
                  r ≠ RPop ∧ r ≠ RDone ∧ r ≠ RUnlock.
Proof.
  intros Hlen Hinit Hr.
  apply jobDispatcher_init_inv in Hinit as (HL & _ & _ & _ & Hs0).
  pose proof (inv_reachable _ _ _ _ _ HL Hlen Hs0 Hr) as Hinv.
  pose proof (inv_queue _ _ _ Hinv) as Hq.
  split; [done|]. destruct (claim_spec _ Hq) as (H1 & H2 & H3).
  do 3 (split; [done|]). intros i Hi.
  pose proof (inv_lock _ _ _ Hinv) as Hlock.
  assert (Hpos : (0 < holders (routines s))%nat).
  { destruct (insert_middle _ _ _ Hi) as (l1 & l2 & -> & _ & _).
    unfold holders. rewrite sum_list_with_app. cbn. lia. }
  destruct (mu (copyLock s)); [|lia]. split; [done|].
  intros j r Hne Hj.
  pose proof (sole_holder _ _ _ _ _ Hlock Hi eq_refl Hj Hne) as Hr0.
  by destruct r.
Qed.

Lemma drain_all (fuel : nat) m (ls ld : Stack) :
  length ls = length ld → (length ls < fuel)%nat →
  drain fuel (CopyJob m (Some ls) (Some ld)) = (reverse (zip ls ld), CopyJob m None None).
Proof.
  revert ls ld. induction fuel as [|fuel IH]; intros ls ld Hlen Hfuel; [lia|].
  cbn [drain].
  destruct (queue_ok_cases m (Some ls) (Some ld) Hlen) as
    [(ls' & ld' & s & d & [= ->] & [= ->] & Hlen')|[[[= ->] [= ->]]|[[=] _]]].
  - rewrite claim_snoc, IH; [|done|rewrite length_app in Hfuel; cbn in Hfuel; lia].
    by rewrite zip_with_app, reverse_app.
  - by rewrite claim_empty.
Qed.

(** C4: on a queue of [N] jobs, claims made one after the other succeed
    exactly [N] times before the queue reports empty, and yield the
    original jobs from the last to the first.  In every execution of the
    dispatcher with [W ≤ N] goroutines, the jobs claimed so far, latest
    first, following the jobs still pending make up the original queue, so
    that no job is claimed twice; each claim is made by one of the [W]
    goroutines; and once the queue has reported empty exactly [N] claims
    have succeeded and the claimed jobs are the original ones, each one
    once. *)
Theorem each_job_claimed_exactly_once (src0 dest0 : Stack) link cont verbose (W : Z)
    L s0 s :
  length src0 = length dest0 → W ≤ Z.of_nat (length src0) →
  jobDispatcher_init src0 dest0 link cont verbose W = Some (L, s0) →
  reachable L s0 s →
  (∀ fuel, (length src0 < fuel)%nat →
     drain fuel (copyLock s0) = (reverse (zip src0 dest0), CopyJob false None None))
  ∧ zip src0 dest0 = pending (copyLock s) ++ reverse (map snd (claims s))
  ∧ Forall (λ c, 0 ≤ c.1 < W) (claims s)
  ∧ (src (copyLock s) = None →
     length (claims s) = length src0
     ∧ map snd (claims s) ≡ₚ zip src0 dest0).
Proof.
  intros Hlen HW Hinit Hr.
  apply jobDispatcher_init_inv in Hinit as (HL & _ & _ & Hjobs & Hs0).
  pose proof (inv_reachable _ _ _ _ _ HL Hlen Hs0 Hr) as Hinv.
  pose proof (inv_lifo _ _ _ Hinv) as Hlifo.
  replace (W >? Z.of_nat (length src0)) with false in Hjobs by (symmetry; lia).
  split; [intros fuel Hfuel; subst s0; by apply drain_all|].
  split; [done|]. split.
  - pose proof (inv_spawn _ _ _ Hinv) as Hsp. pose proof (inv_ids _ _ _ Hinv) as Hids.
    eapply Forall_impl; [exact Hids|]. cbn. intros c Hc.
    destruct (disp s); lia.
  - intros Hsrc. pose proof (inv_queue _ _ _ Hinv) as Hq.
    assert (Hp : pending (copyLock s) = []).
    { unfold pending, paired. by rewrite Hsrc. }
    rewrite Hp in Hlifo. cbn [app] in Hlifo. split.
    + apply (f_equal length) in Hlifo.
      rewrite length_reverse, length_map, length_zip_with in Hlifo. lia.
    + by rewrite Hlifo, reverse_Permutation.
Qed.

(** ** Single files and missing [-recurse] *)

(** C7: when the source resolves to a non-directory, [parallelCopy] makes
    one call of [cp.CopyFile] on the source and destination as given, with
    the hardlink flag, and returns its result; it walks no tree and calls
    no dispatcher. *)
Theorem single_file_is_copied_directly (src0 dest0 srcAbs : string)
    (hardlink recurse useful cont verbose : bool) (jobs : Z) :
  cp_AbsolutePath src0 = inr srcAbs → os_Lstat srcAbs = inr false →
  parallelCopy src0 dest0 hardlink recurse useful cont verbose jobs
  = ([call_AbsolutePath src0; call_Lstat srcAbs; call_CopyFile src0 dest0 hardlink],
     Return (cp_CopyFile src0 dest0 hardlink))
  ∧ ∀ r, parallelCopy_returns src0 dest0 hardlink recurse useful cont verbose jobs r
         ↔ r = cp_CopyFile src0 dest0 hardlink.
Proof.
  intros Ha Hl. unfold parallelCopy_returns, parallelCopy. rewrite Ha, Hl. by cbn.
Qed.

(** C8: when the source resolves to a directory and [recurse] is false,
    [parallelCopy] returns the error whose message starts with
    "source is a directory" after resolving and examining the source only:
    no walk, no goroutine, no copy, and no call that names the
    destination. *)
Theorem directory_without_recurse_is_refused (src0 dest0 srcAbs : string)
    (hardlink useful cont verbose : bool) (jobs : Z) :
  cp_AbsolutePath src0 = inr srcAbs → os_Lstat srcAbs = inr true →
  ∃ msg,
    parallelCopy src0 dest0 hardlink false useful cont verbose jobs
    = ([call_AbsolutePath src0; call_Lstat srcAbs], Return (Some msg))
    ∧ HasPrefix msg "source is a directory" = true
    ∧ ∀ r, parallelCopy_returns src0 dest0 hardlink false useful cont verbose jobs r
           ↔ r = Some msg.
Proof.
  intros Ha Hl. eexists. unfold parallelCopy_returns, parallelCopy. rewrite Ha, Hl.
  cbn. done.
Qed.

(** ** Executions of the dispatcher *)

Lemma errors_of_nil_succeeds link l :
  errors_of link l = [] → Forall (succeeds link) l.
Proof.
  induction l as [|p l IH]; [constructor|]. unfold errors_of. cbn.
  destruct (cp_CopyFile p.1 p.2 link) eqn:Hp; [done|]. intros H.
  constructor; [done|]. by apply IH.
Qed.

Lemma filter_succeeds_all link l :
  Forall (succeeds link) l → filter (succeeds link) l = l.
Proof.
  induction 1 as [|p l Hp _ IH]; [done|]. rewrite filter_cons_True by done. by f_equal.
Qed.

Lemma one_failure link (all : list (string * string)) i bad e :
  all !! i = Some bad → cp_CopyFile bad.1 bad.2 link = Some e →
  errors_of link all = [e] →
  filter (succeeds link) all = delete i all.
Proof.
  intros Hi Hbad Herr. rewrite delete_take_drop.
  destruct (insert_middle _ _ _ Hi) as (l1 & l2 & -> & -> & _).
  rewrite take_app_length.
  assert (Hdrop : drop (S (length l1)) (l1 ++ bad :: l2) = l2).
  { clear. induction l1; cbn; auto. }
  rewrite Hdrop.
  unfold errors_of in Herr. rewrite omap_app in Herr. cbn in Herr. rewrite Hbad in Herr.
  assert (H1 : errors_of link l1 = [] ∧ errors_of link l2 = []).
  { unfold errors_of.
    destruct (omap _ l1) as [|x xs]; [by injection Herr|].
    injection Herr as _ Hx. by destruct xs. }
  destruct H1 as [H1%errors_of_nil_succeeds H2%errors_of_nil_succeeds].
  rewrite filter_app, filter_cons_False.
  2:{ unfold succeeds. by rewrite Hbad. }
  by rewrite !filter_succeeds_all.
Qed.

Lemma errors_of_Permutation link (l k : list (string * string)) :
  l ≡ₚ k → errors_of link l ≡ₚ errors_of link k.
Proof. intros H. unfold errors_of. by rewrite H. Qed.

Lemma returned_DReturn d : returned d = true → ∃ ret, d = DReturn ret.
Proof. destruct d; try done. eauto. Qed.

Lemma can_return (L : locals) (all : list (string * string)) (s0 : state) :
  locals_ok L → 1 ≤ l_jobs L → l_cont L = true →
  (∀ s, reachable L s0 s → inv L all s) →
  ∀ n s, (measure L s ≤ n)%nat → reachable L s0 s →
         ∃ s' ret, reachable L s0 s' ∧ disp s' = DReturn ret.
Proof.
  intros HL Hj Hc Hinv n. induction n as [|n IH]; intros s Hm Hr.
  - destruct (returned (disp s)) eqn:Hret.
    + apply returned_DReturn in Hret as [ret ?]. eauto.
    + destruct (progress L all s) as (t & s' & Hs); auto.
      pose proof (step_measure _ _ _ _ _ (Hinv _ Hr) Hs). lia.
  - destruct (returned (disp s)) eqn:Hret.
    + apply returned_DReturn in Hret as [ret ?]. eauto.
    + destruct (progress L all s) as (t & s' & Hs); auto.
      pose proof (step_measure _ _ _ _ _ (Hinv _ Hr) Hs).
      apply (IH s'); [lia|]. by eapply reachable_step.
Qed.

Lemma run_reachable (L : locals) (sched : list thread) (s0 s : state) :
  reachable L s0 s → reachable L s0 (run L sched s).
Proof.
  revert s. induction sched as [|t sched IH]; intros s Hr; [done|]. cbn [run].
  apply IH. destruct (step L s t) as [s'|] eqn:Hs; [|done]. by eapply reachable_step.
Qed.

(** C3: with [cont] true, three goroutines requested and five jobs of which
    exactly one fails, with error [e]: every action brings the end nearer,
    so that no execution goes on for ever; as long as the dispatcher has not
    returned some thread can act, so that no execution stops before the
    return, and some execution does return; and whenever the dispatcher
    returns, the list it returns is [[e]], the copied files are the four
    other jobs, the channel is empty, and each of the three goroutines has
    sent its completion message and is at its [Unlock] or has returned. *)
Theorem continue_on_error_collects_the_one_failure (src0 dest0 : Stack) link verbose
    (i : nat) (bad : string * string) (e : error) :
  length src0 = 5%nat → length dest0 = 5%nat →
  zip src0 dest0 !! i = Some bad → cp_CopyFile bad.1 bad.2 link = Some e →
  errors_of link (zip src0 dest0) = [e] →
  ∃ L s0,
    jobDispatcher_init src0 dest0 link true verbose 3 = Some (L, s0)
    ∧ (∀ s t s', reachable L s0 s → step L s t = Some s' →
                 (measure L s' < measure L s)%nat)
    ∧ (∀ s, reachable L s0 s → returned (disp s) = false →
            ∃ t s', step L s t = Some s')
    ∧ (∃ s ret, reachable L s0 s ∧ disp s = DReturn ret)
    ∧ (∀ s ret, reachable L s0 s → disp s = DReturn ret →
         ret = [e]
         ∧ copied L s ≡ₚ delete i (zip src0 dest0)
         ∧ length (routines s) = 3%nat
         ∧ Forall (λ r, r = RUnlock ∨ r = RExit) (routines s)
         ∧ errChannel s = []).
Proof.
  intros Hls Hld Hi Hbad Hone.
  destruct (jobDispatcher_init src0 dest0 link true verbose 3) as [[L s0]|] eqn:Hinit.
  2:{ unfold jobDispatcher_init in Hinit. rewrite Hls in Hinit. done. }
  exists L, s0. split; [done|].
  apply jobDispatcher_init_inv in Hinit as (HL & Hcont & Hlink & Hjobs & Hs0).
  rewrite Hls in Hjobs. change (l_jobs L = 3) in Hjobs.
  assert (Hinv : ∀ s, reachable L s0 s → inv L (zip src0 dest0) s).
  { intros s Hr. eapply inv_reachable; eauto. congruence. }
  split; [|split; [|split]].
  - intros s t s' Hr Hs. eapply step_measure; eauto.
  - intros s Hr Hret. eapply progress; eauto. lia.
  - eapply (can_return L _ s0 HL); eauto; [lia|]. constructor.
  - intros s ret Hr Hd.
    destruct (inv_returned _ _ _ _ (Hinv _ Hr) Hd)
      as (Hch & Hex & Hlen & _ & Hall & Herr & _).
    apply (errors_of_Permutation link) in Hall as Hall'.
    rewrite Hlink, <- Hall', Hone in Herr. symmetry in Herr.
    apply Permutation_singleton_r in Herr. repeat split; try done.
    + unfold copied. rewrite <- Hall, Hlink. by erewrite one_failure.
    + lia.
Qed.

(** C2, as the program behaves: with [cont] false, one goroutine and five
    jobs of which exactly one fails, the dispatcher returns in no
    execution; every execution is finite, and when no thread can act any
    more the goroutine has returned without a completion message, only
    jobs claimed up to the failing one have been copied, and the dispatcher
    waits in its receiving loop with [total] still 1, holding the one
    error [e]. *)
Theorem fail_fast_dispatcher_never_returns (src0 dest0 : Stack) link verbose
    (i : nat) (bad : string * string) (e : error) :
  length src0 = 5%nat → length dest0 = 5%nat →
  zip src0 dest0 !! i = Some bad → cp_CopyFile bad.1 bad.2 link = Some e →
  errors_of link (zip src0 dest0) = [e] →
  ∃ L s0,
    jobDispatcher_init src0 dest0 link false verbose 1 = Some (L, s0)
    ∧ (∀ s, reachable L s0 s → returned (disp s) = false)
    ∧ (∀ s t s', reachable L s0 s → step L s t = Some s' →
                 (measure L s' < measure L s)%nat)
    ∧ (∀ s, reachable L s0 s → stuck L s →
         disp s = DRecv 1 [e] ∧ routines s = [RExit] ∧ errChannel s = []
         ∧ zip src0 dest0 = pending (copyLock s) ++ reverse (map snd (claims s))
         ∧ copies s ≡ₚ map snd (claims s)).
Proof.
  intros Hls Hld Hi Hbad Hone.
  destruct (jobDispatcher_init src0 dest0 link false verbose 1) as [[L s0]|] eqn:Hinit.
  2:{ unfold jobDispatcher_init in Hinit. rewrite Hls in Hinit. done. }
  exists L, s0. split; [done|].
  apply jobDispatcher_init_inv in Hinit as (HL & Hcont & Hlink & Hjobs & Hs0).
  rewrite Hls in Hjobs. change (l_jobs L = 1) in Hjobs.
  assert (Hinv : ∀ s, reachable L s0 s → inv L (zip src0 dest0) s).
  { intros s Hr. eapply inv_reachable; eauto. congruence. }
  assert (Hnever : ∀ s, reachable L s0 s → returned (disp s) = false); [|split; [done|split]].
  - intros s Hr. destruct (returned (disp s)) eqn:Hret; [|done].
    apply returned_DReturn in Hret as [ret Hd].
    destruct (inv_returned _ _ _ _ (Hinv _ Hr) Hd)
      as (_ & _ & _ & _ & Hall & Herr & Hnil).
    apply (errors_of_Permutation link) in Hall as Hall'.
    rewrite (Hnil Hcont), Hlink, <- Hall', Hone in Herr.
    by apply Permutation_nil_r in Herr.
  - intros s t s' Hr Hs. eapply step_measure; eauto.
  - intros s Hr Hstuck. pose proof (Hinv _ Hr) as Hi'. pose proof (Hnever _ Hr) as Hret.
    destruct HL as [_ Hcap]. rewrite Hcont, Hjobs in Hcap.
    assert (Hch : errChannel s = []).
    { destruct (errChannel s) eqn:Hch; [done|].
      destruct (dispatcher_can_act L s Hret) as [s' Hs]; [right; by rewrite Hch|].
      by rewrite Hstuck in Hs. }
    assert (Hal : alive (routines s) = 0%nat).
    { destruct (alive (routines s)) eqn:Hal; [done|].
      destruct (routine_can_act L _ s Hi' Hch) as (j & s' & Hs); [lia..|].
      by rewrite Hstuck in Hs. }
    destruct (all_exited _ Hal) as (Hex & Hic & Hfg).
    destruct Hi' as [_ _ Hlifo Hcl Herr _ Htot _ _ Hsp _].
    rewrite Hch, Hal, Hic, Hfg, Hcont, Hlink, ?app_nil_r in *.
    rewrite chan_errors_nil in *. cbn [dones sum_list_with length] in Htot.
    destruct (disp s) as [k|total ret|ret] eqn:Hd; [|clear Hret|done].
    { destruct (dispatcher_can_act L s) as [s' Hs]; [by rewrite Hd|left; rewrite Hd; eauto|].
      by rewrite Hstuck in Hs. }
    cbn [total_of unspawned reported] in *. destruct Hsp as [Hlen Hz].
    assert (Hrs : routines s = [RExit]).
    { destruct (routines s) as [|r [|??]] eqn:Hrs; cbn in Hlen; try lia.
      apply Forall_cons in Hex as [[-> | ->] _]; [|done].
      specialize (Hstuck (Routine 0)). cbn in Hstuck. by rewrite Hrs in Hstuck. }
    assert (Hsplit : errors_of link (pending (copyLock s))
                     ++ errors_of link (reverse (map snd (claims s))) = [e]).
    { rewrite <- Hone, Hlifo. unfold errors_of. by rewrite omap_app. }
    assert (Hperm : errors_of link (reverse (map snd (claims s))) ≡ₚ ret).
    { rewrite <- Herr. apply errors_of_Permutation. by rewrite reverse_Permutation. }
    assert (Hret : ret = [e]).
    { destruct ret as [|x ret]; [cbn in Htot; lia|].
      destruct (errors_of link (reverse (map snd (claims s)))) as [|y ys] eqn:Hys.
      { by apply Permutation_nil_l in Hperm. }
      destruct (errors_of link (pending (copyLock s))) as [|z zs].
      - cbn in Hsplit. injection Hsplit as -> ->.
        by apply Permutation_singleton_l in Hperm.
      - cbn in Hsplit. injection Hsplit as _ Hzs. by destruct zs. }
    subst ret. cbn in Htot. repeat split; try done.
    f_equal. lia.
Qed.

(** C10, for a worker count that is not negative: on an empty source list
    [jobs] becomes zero and the channel is unbuffered; in every execution no
    goroutine is started, no message is sent and the dispatcher does not
    return; it enters its receiving loop with [total] zero, where no thread
    can act any more. *)
Theorem empty_queue_dispatcher_waits_for_ever (dest0 : Stack) link cont verbose
    (jobs : Z) :
  0 ≤ jobs →
  ∃ L s0,
    jobDispatcher_init [] dest0 link cont verbose jobs = Some (L, s0)
    ∧ l_jobs L = 0 ∧ l_cap L = 0
    ∧ (∀ s, reachable L s0 s →
         routines s = [] ∧ errChannel s = [] ∧ returned (disp s) = false)
    ∧ (∃ s, reachable L s0 s ∧ disp s = DRecv 0 [] ∧ stuck L s)
    ∧ ¬ ∃ ret, jobDispatcher_returns [] dest0 link cont verbose jobs ret.
Proof.
  intros Hjobs.
  set (L := Locals cont link verbose 0 0).
  set (s0 := State (CopyJob false (Some []) (Some dest0)) [] [] (DSpawn 0) [] []).
  set (s1 := State (CopyJob false (Some []) (Some dest0)) [] [] (DRecv 0 []) [] []).
  assert (Hinit : jobDispatcher_init [] dest0 link cont verbose jobs = Some (L, s0)).
  { unfold jobDispatcher_init. cbn [length]. change (Z.of_nat 0) with 0.
    destruct (jobs >? 0) eqn:Hj.
    - by destruct cont.
    - assert (jobs = 0) as -> by lia. by destruct cont. }
  assert (Hreach : ∀ s, reachable L s0 s → s = s0 ∨ s = s1).
  { intros s Hr. induction Hr as [|s t s' _ IH Hs]; [by left|]. right.
    destruct IH as [-> | ->]; destruct t as [|i]; cbn in Hs; by try injection Hs as <-. }
  exists L, s0. split; [done|]. do 2 (split; [done|]). split; [|split].
  - intros s [-> | ->]%Hreach; by cbn.
  - exists s1. split; [|split; [done|]].
    + apply (reachable_step L s0 s0 Dispatcher); [constructor|done].
    + intros [|i]; by cbn.
  - intros (ret & L' & s0' & s & Hinit' & Hr & Hd).
    rewrite Hinit in Hinit'. injection Hinit' as <- <-.
    apply Hreach in Hr as [-> | ->]; by cbn in Hd.
Qed.

(** *** The result of the dispatcher in [parallelCopy] *)

Lemma parallelCopy_after_dispatch (src0 dest0 : string)
    (hardlink recurse useful cont verbose : bool) (jobs : Z)
    srcFiles destFiles link' cont' verbose' jobs' e :
  snd (parallelCopy src0 dest0 hardlink recurse useful cont verbose jobs)
  = ReturnAfterDispatch srcFiles destFiles link' cont' verbose' jobs' e →
  e = None.
Proof.
  unfold parallelCopy.
  repeat match goal with
  | |- context [match ?x with _ => _ end] => destruct x
  end; cbn; congruence.
Qed.

(** * Further properties of the code *)

(** ** Package [stack] *)

(** X1: popping a stack onto which a string was just pushed returns that
    string and the stack as it was before the push. *)
Theorem push_then_pop (l : Stack) (val : string) :
  Pop (Push (Some l) val) = (val, Some l).
Proof. cbn [Push]. apply Pop_snoc. Qed.

Lemma Pop_cases (stk : option Stack) :
  (default [] stk = [] ∧ Pop stk = (EmptyString, None))
  ∨ (∃ l x, stk = Some (l ++ [x]) ∧ Pop stk = (x, Some l)).
Proof.
  destruct stk as [l|]; [|by left].
  destruct l as [|x l _] using rev_ind; [by left|].
  right. exists l, x. by rewrite Pop_snoc.
Qed.

(** X2: [Pop] returns the nil pointer exactly on a nil pointer or an empty
    stack, and the string it returns with it is empty; on any other stack
    the pointer it returns is not nil, also when no string is left, and the
    stack pointed to is one string shorter. *)
Theorem pop_is_nil_only_on_empty (stk : option Stack) :
  ((Pop stk).2 = None ↔ default [] stk = [])
  ∧ ((Pop stk).2 = None → (Pop stk).1 = EmptyString)
  ∧ (∀ l, (Pop stk).2 = Some l → S (length l) = length (default [] stk)).
Proof.
  destruct (Pop_cases stk) as [[He ->]|(l & x & -> & ->)]; cbn.
  - by repeat split.
  - repeat split; try done.
    + intros H. by destruct l.
    + intros l' [= <-]. rewrite length_app. cbn. lia.
Qed.

Lemma Merge_Some (d src0 : Stack) : Merge (Some d) src0 = Some (d ++ src0).
Proof.
  unfold Merge. revert d. induction src0 as [|x xs IH]; intros d; cbn.
  - by rewrite app_nil_r.
  - rewrite IH. by rewrite <- app_assoc.
Qed.

Lemma pop_all_reverse (fuel : nat) (l : Stack) :
  (length l < fuel)%nat → pop_all fuel (Some l) = reverse l.
Proof.
  revert l. induction fuel as [|fuel IH]; intros l Hl; [lia|]. cbn [pop_all].
  destruct l as [|x l _] using rev_ind; [done|].
  rewrite Pop_snoc, reverse_app. cbn. f_equal. apply IH.
  rewrite length_app in Hl. cbn in Hl. lia.
Qed.

(** X3: [Merge] leaves in [dest] the strings of [dest] followed by those of
    [src], in order; merging twice is merging the two sources one after the
    other; and nothing is stored through a nil [dest], which is returned
    as it is. *)
Theorem merge_appends (d a b : Stack) :
  Merge (Some d) a = Some (d ++ a)
  ∧ Merge (Merge (Some d) a) b = Merge (Some d) (a ++ b)
  ∧ Merge None a = None.
Proof.
  split; [apply Merge_Some|]. split.
  - by rewrite !Merge_Some, app_assoc.
  - unfold Merge. induction a as [|x xs IH]; [done|]. cbn. apply IH.
Qed.

(** X4: the pops of a merged stack give the strings of [src] from the last
    to the first, then those of [dest] from the last to the first, and the
    nil pointer comes only after all of them. *)
Theorem merge_then_pop_all (d src0 : Stack) (fuel : nat) :
  (length d + length src0 < fuel)%nat →
  pop_all fuel (Merge (Some d) src0) = reverse src0 ++ reverse d.
Proof.
  intros H. rewrite Merge_Some, pop_all_reverse, reverse_app; [done|].
  rewrite length_app. lia.
Qed.

(** ** Claims on lists that are out of step *)

(** X5: whether a claim reports the queue empty depends on the source list
    alone: it does so exactly when [src] is nil or empty, whatever [dest]
    holds. *)
Theorem claim_reports_empty_by_src_alone (jobs : copyJob) :
  (claim jobs).1 = None ↔ default [] (src jobs) = [].
Proof.
  destruct jobs as [m sr de]. unfold claim. cbn [src dest mu].
  destruct (Pop_cases sr) as [[He ->]|(l & x & -> & ->)];
    destruct (Pop de) as [d de']; cbn; [done|].
  split; [done|]. intros H. by destruct l.
Qed.

(** X6: when the destination list is exhausted before the source list, a
    claim still succeeds: it returns the last source path with the empty
    string as its destination and leaves [dest] nil. *)
Theorem claim_with_exhausted_dest (jobs : copyJob) (ls : Stack) (s : string) :
  src jobs = Some (ls ++ [s]) → default [] (dest jobs) = [] →
  claim jobs = (Some (s, EmptyString), CopyJob (mu jobs) (Some ls) None).
Proof.
  destruct jobs as [m sr de]. cbn [src dest mu]. intros -> Hd.
  unfold claim. cbn [src dest mu]. rewrite Pop_snoc.
  destruct (Pop_cases de) as [[_ ->]|(l & x & -> & _)]; [done|].
  by destruct l.
Qed.

(** ** The dispatcher on any queue *)

Lemma jobDispatcher_init_clamp (src0 dest0 : Stack) link cont verbose jobs :
  0 ≤ jobs →
  jobDispatcher_init src0 dest0 link cont verbose jobs
  = Some (Locals cont link verbose (Z.min jobs (Z.of_nat (length src0)))
            (if cont then Z.min jobs (Z.of_nat (length src0)) * 2
             else Z.min jobs (Z.of_nat (length src0))),
          State (CopyJob false (Some src0) (Some dest0)) [] [] (DSpawn 0) [] []).
Proof.
  intros Hj. unfold jobDispatcher_init.
  assert (Hmin : (if jobs >? Z.of_nat (length src0) then Z.of_nat (length src0) else jobs)
                 = Z.min jobs (Z.of_nat (length src0))).
  { destruct (jobs >? Z.of_nat (length src0)) eqn:H; lia. }
  rewrite Hmin.
  replace ((if cont then Z.min jobs (Z.of_nat (length src0)) * 2
            else Z.min jobs (Z.of_nat (length src0))) <? 0) with false; [done|].
  symmetry. apply Z.ltb_ge. destruct cont; lia.
Qed.


Lemma inv_of_execution (src0 dest0 : Stack) link cont verbose jobs L s0 s :
  length src0 = length dest0 →
  jobDispatcher_init src0 dest0 link cont verbose jobs = Some (L, s0) →
  reachable L s0 s →
  inv L (zip src0 dest0) s ∧ locals_ok L ∧ l_cont L = cont ∧ l_link L = link
  ∧ l_jobs L = Z.min jobs (Z.of_nat (length src0)).
Proof.
  intros Hlen Hinit Hr.
  apply jobDispatcher_init_inv in Hinit as (HL & Hc & Hl & Hj & Hs0).
  split; [by eapply inv_reachable|]. do 3 (split; [done|]).
  rewrite Hj. destruct (jobs >? Z.of_nat (length src0)) eqn:H; lia.
Qed.


Lemma total_never_grows (L : locals) (s s' : state) (t : thread) :
  0 ≤ l_jobs L → total_of L (disp s) ≤ l_jobs L → step L s t = Some s' →
  total_of L (disp s') ≤ l_jobs L.
Proof.
  intros Hj Hb Hstep. destruct t as [|i]; cbn [step] in Hstep.
  - unfold jobDispatcher_step in Hstep.
    destruct (disp s) as [k|total ret|ret]; [| |done].
    + destruct (k <? l_jobs L); injection Hstep as <-; cbn; lia.
    + destruct (errChannel s) as [|m ch]; [done|].
      destruct (err m); [|destruct (total - 1 =? 0) eqn:Ht];
        injection Hstep as <-; cbn in *; rewrite ?Ht; cbn; lia.
  - destruct (routines s !! i) as [pc|]; [|done]. unfold copyRoutine in Hstep.
    destruct pc;
      repeat match type of Hstep with
      | context [match ?x with _ => _ end] => destruct x
      end; try done; by injection Hstep as <-.
Qed.

Lemma total_bounded (src0 dest0 : Stack) link cont verbose jobs L s0 s :
  jobDispatcher_init src0 dest0 link cont verbose jobs = Some (L, s0) →
  reachable L s0 s → total_of L (disp s) ≤ l_jobs L.
Proof.
  intros Hinit Hr.
  apply jobDispatcher_init_inv in Hinit as ([Hj _] & _ & _ & _ & Hs0).
  induction Hr as [|s t s' Hr IH Hs]; [subst s0; cbn; lia|].
  by eapply total_never_grows.
Qed.

Lemma alive_lookup (rs : list routine) (i : nat) (pc : routine) :
  rs !! i = Some pc → (live pc ≤ alive rs)%nat.
Proof.
  intros Hi. rewrite <- (take_drop_middle _ _ _ Hi).
  unfold alive. rewrite sum_list_with_app. cbn. lia.
Qed.

(** X9: without [cont] the channel is large enough for a goroutine never to
    wait at a send: each goroutine sends one message at most, so that in
    every execution a goroutine about to send its completion message or a
    failure message finds room in the channel and can go on. *)
Theorem fail_fast_send_never_waits (src0 dest0 : Stack) link verbose jobs L s0 s
    (i : nat) (pc : routine) :
  length src0 = length dest0 →
  jobDispatcher_init src0 dest0 link false verbose jobs = Some (L, s0) →
  reachable L s0 s →
  routines s !! i = Some pc →
  pc = RDone ∨ (∃ s1 d1 e, pc = RFail s1 d1 e) →
  Z.of_nat (length (errChannel s)) < l_cap L
  ∧ ∃ s', step L s (Routine i) = Some s'.
Proof.
  intros Hlen Hinit Hr Hi Hpc.
  pose proof (total_bounded _ _ _ _ _ _ _ _ _ Hinit Hr) as Htot.
  destruct (inv_of_execution _ _ _ _ _ _ _ _ _ Hlen Hinit Hr)
    as (Hinv & [Hj Hcap] & Hcont & _ & _).
  pose proof (inv_total _ _ _ Hinv) as Heq. pose proof (inv_spawn _ _ _ Hinv) as Hsp.
  rewrite Hcont in Heq, Hcap.
  assert (0 ≤ unspawned L (disp s)) by (destruct (disp s); cbn in *; lia).
  pose proof (alive_lookup _ _ _ Hi) as Hlive.
  pose proof (length_channel (errChannel s)) as Hch.
  assert (Hone : live pc = 1%nat) by (by destruct Hpc as [->|(? & ? & ? & ->)]).
  assert (Hroom : Z.of_nat (length (errChannel s)) < l_cap L) by lia.
  split; [done|]. cbn [step]. rewrite Hi. unfold copyRoutine, full.
  destruct (l_cap L <=? Z.of_nat (length (errChannel s))) eqn:Hf;
    [apply Z.leb_le in Hf; lia|].
  destruct Hpc as [->|(? & ? & ? & ->)]; by eexists.
Qed.

(** X10: in every execution each job of the queue is in exactly one place:
    still pending, claimed by one goroutine that has not yet called
    [cp.CopyFile] on it, or passed to [cp.CopyFile] once; so no job is
    copied twice and nothing is copied that was not in the queue. *)
Theorem each_job_copied_at_most_once (src0 dest0 : Stack) link cont verbose jobs L s0 s :
  length src0 = length dest0 →
  jobDispatcher_init src0 dest0 link cont verbose jobs = Some (L, s0) →
  reachable L s0 s →
  zip src0 dest0 ≡ₚ pending (copyLock s) ++ in_copy (routines s) ++ copies s.
Proof.
  intros Hlen Hinit Hr.
  destruct (inv_of_execution _ _ _ _ _ _ _ _ _ Hlen Hinit Hr) as (Hinv & _).
  rewrite (inv_lifo _ _ _ Hinv) at 1. rewrite reverse_Permutation, (inv_claims _ _ _ Hinv).
  solve_Permutation.
Qed.

Lemma length_omap_le {A B} (f : A → option B) (l : list A) :
  (length (omap f l) ≤ length l)%nat.
Proof. induction l as [|x l IH]; cbn; [lia|]. destruct (f x); cbn; lia. Qed.

Lemma copies_in_queue (L : locals) (all : list (string * string)) (s : state) :
  inv L all s → ∃ rest, all ≡ₚ rest ++ copies s.
Proof.
  intros Hinv. exists (pending (copyLock s) ++ in_copy (routines s)).
  rewrite (inv_lifo _ _ _ Hinv) at 1. rewrite reverse_Permutation, (inv_claims _ _ _ Hinv).
  solve_Permutation.
Qed.

(** X11: every error the dispatcher has collected is the error that
    [cp.CopyFile] returned for a job of the queue, and the dispatcher never
    holds more errors than the queue had jobs. *)
Theorem collected_errors_come_from_jobs (src0 dest0 : Stack) link cont verbose jobs L s0 s :
  length src0 = length dest0 →
  jobDispatcher_init src0 dest0 link cont verbose jobs = Some (L, s0) →
  reachable L s0 s →
  (∀ e, e ∈ reported (disp s) →
        ∃ p, p ∈ zip src0 dest0 ∧ cp_CopyFile p.1 p.2 link = Some e)
  ∧ (length (reported (disp s)) ≤ length src0)%nat.
Proof.
  intros Hlen Hinit Hr.
  destruct (inv_of_execution _ _ _ _ _ _ _ _ _ Hlen Hinit Hr) as (Hinv & _ & _ & Hl & _).
  pose proof (inv_errors _ _ _ Hinv) as Herr. rewrite Hl in Herr.
  destruct (copies_in_queue _ _ _ Hinv) as [rest Hrest]. split.
  - intros e He.
    assert (He' : e ∈ errors_of link (copies s)).
    { rewrite Herr. apply elem_of_app. by left. }
    apply list_elem_of_omap in He' as (p & Hp & Hcf).
    exists p. split; [|done]. rewrite Hrest. apply elem_of_app. by right.
  - apply Permutation_length in Herr, Hrest.
    rewrite !length_app in Herr. rewrite length_app, length_zip_with in Hrest.
    pose proof (length_omap_le (λ p, cp_CopyFile p.1 p.2 link) (copies s)) as Hle.
    unfold errors_of in Herr. lia.
Qed.

Lemma quiet_without_failure (L : locals) (all : list (string * string)) (s : state) :
  inv L all s → errors_of (l_link L) all = [] →
  reported (disp s) = [] ∧ chan_errors (errChannel s) = [] ∧ failing (routines s) = [].
Proof.
  intros Hinv Hall. destruct (copies_in_queue _ _ _ Hinv) as [rest Hrest].
  apply (errors_of_Permutation (l_link L)) in Hrest. rewrite Hall in Hrest.
  apply Permutation_nil_l in Hrest. symmetry in Hrest. unfold errors_of in Hrest.
  rewrite omap_app in Hrest. apply app_eq_nil in Hrest as [_ Hc].
  pose proof (inv_errors _ _ _ Hinv) as Herr. unfold errors_of in Herr.
  rewrite Hc in Herr. apply Permutation_nil_l in Herr. symmetry in Herr.
  apply app_eq_nil in Herr as [H1 H2]. apply app_eq_nil in H2 as [H2 H3]. done.
Qed.

Lemma progress_always (L : locals) (all : list (string * string)) (s : state) :
  locals_ok L → 1 ≤ l_jobs L →
  l_cont L = true ∨ errors_of (l_link L) all = [] →
  inv L all s → returned (disp s) = false →
  ∃ t s', step L s t = Some s'.
Proof.
  intros HL Hjobs [Hcont|Hquiet] Hinv Hret; [by eapply progress|].
  destruct HL as [Hj Hcap].
  destruct (quiet_without_failure _ _ _ Hinv Hquiet) as (Hrep & Hce & _).
  pose proof (inv_total _ _ _ Hinv) as Htot. pose proof (inv_spawn _ _ _ Hinv) as Hsp.
  rewrite Hrep, Hce in Htot. cbn [length] in Htot.
  destruct (disp s) as [k|total ret|ret] eqn:Hd; [| |done].
  - exists Dispatcher. apply dispatcher_can_act; [by rewrite Hd|]. rewrite Hd. eauto.
  - destruct (errChannel s) as [|msg ch] eqn:Hch.
    + cbn in Htot. destruct (routine_can_act L all s) as (i & s' & Hs); eauto.
      * destruct (l_cont L); lia.
      * destruct Hsp as [_ Hz]. destruct (l_cont L); lia.
    + exists Dispatcher. apply dispatcher_can_act; [by rewrite Hd|]. rewrite Hch. by right.
Qed.

Lemma returns_in_the_end (L : locals) (all : list (string * string)) (s0 : state) :
  (∀ s, reachable L s0 s → inv L all s) →
  (∀ s, reachable L s0 s → returned (disp s) = false → ∃ t s', step L s t = Some s') →
  ∀ n s, (measure L s ≤ n)%nat → reachable L s0 s →
         ∃ s' ret, reachable L s0 s' ∧ disp s' = DReturn ret.
Proof.
  intros Hinv Hprog n. induction n as [|n IH]; intros s Hm Hr;
    (destruct (returned (disp s)) eqn:Hret;
     [apply returned_DReturn in Hret as [ret ?]; by eauto|]);
    destruct (Hprog s Hr Hret) as (t & s' & Hs);
    pose proof (step_measure _ _ _ _ _ (Hinv _ Hr) Hs); [lia|].
  apply (IH s'); [lia|]. by eapply reachable_step.
Qed.

(** X12: with [cont] set and at least one goroutine requested, on any
    queue: every action brings the end nearer, some thread can act as long
    as the dispatcher has not returned, some execution returns, and at
    every return each job has been passed to [cp.CopyFile] exactly once,
    the list returned holds exactly the errors of the failed jobs, and the
    channel is empty. *)
Theorem continue_mode_returns_every_error (src0 dest0 : Stack) link verbose (jobs : Z) :
  length src0 = length dest0 → 1 ≤ jobs → src0 ≠ [] →
  ∃ L s0,
    jobDispatcher_init src0 dest0 link true verbose jobs = Some (L, s0)
    ∧ (∀ s t s', reachable L s0 s → step L s t = Some s' →
                 (measure L s' < measure L s)%nat)
    ∧ (∀ s, reachable L s0 s → returned (disp s) = false →
            ∃ t s', step L s t = Some s')
    ∧ (∃ s ret, reachable L s0 s ∧ disp s = DReturn ret)
    ∧ (∀ s ret, reachable L s0 s → disp s = DReturn ret →
         copies s ≡ₚ zip src0 dest0
         ∧ ret ≡ₚ errors_of link (zip src0 dest0)
         ∧ errChannel s = []).
Proof.
  intros Hlen Hjobs Hne.
  destruct (jobDispatcher_init src0 dest0 link true verbose jobs) as [[L s0]|] eqn:Hinit.
  2:{ rewrite jobDispatcher_init_clamp in Hinit by lia. done. }
  exists L, s0. split; [done|].
  assert (Hall : ∀ s, reachable L s0 s →
            inv L (zip src0 dest0) s ∧ locals_ok L ∧ l_cont L = true ∧ l_link L = link
            ∧ l_jobs L = Z.min jobs (Z.of_nat (length src0))).
  { intros s Hr. by eapply inv_of_execution. }
  destruct (Hall s0 (reachable_init _ _)) as (_ & HL & Hcont & Hlink & Hj).
  assert (H1 : 1 ≤ l_jobs L) by (destruct src0; [done|cbn in Hj; lia]).
  assert (Hprog : ∀ s, reachable L s0 s → returned (disp s) = false →
            ∃ t s', step L s t = Some s').
  { intros s Hr Hret. eapply progress; eauto. by apply Hall. }
  split; [|split; [done|split]].
  - intros s t s' Hr Hs. eapply step_measure; [|done]. by apply Hall.
  - eapply (returns_in_the_end L _ s0); eauto; [|constructor]. intros s Hr. by apply Hall.
  - intros s ret Hr Hd. destruct (Hall s Hr) as (Hinv & _).
    destruct (inv_returned _ _ _ _ Hinv Hd) as (Hch & _ & _ & _ & Hperm & Herr & _).
    repeat split; [done| |done].
    rewrite <- Herr, Hlink. by apply errors_of_Permutation.
Qed.

(** X13: without [cont], on any queue and for any number of goroutines: if
    the dispatcher returns, no copy has failed, the list it returns is
    empty and every job has been passed to [cp.CopyFile] exactly once; so
    when some job of the queue fails the dispatcher returns in no
    execution. *)
Theorem fail_fast_returns_only_without_failure (src0 dest0 : Stack) link verbose jobs
    L s0 s ret :
  length src0 = length dest0 →
  jobDispatcher_init src0 dest0 link false verbose jobs = Some (L, s0) →
  reachable L s0 s → disp s = DReturn ret →
  ret = [] ∧ errors_of link (zip src0 dest0) = [] ∧ copies s ≡ₚ zip src0 dest0.
Proof.
  intros Hlen Hinit Hr Hd.
  destruct (inv_of_execution _ _ _ _ _ _ _ _ _ Hlen Hinit Hr) as (Hinv & _ & Hcont & Hl & _).
  destruct (inv_returned _ _ _ _ Hinv Hd) as (_ & _ & _ & _ & Hperm & Herr & Hnil).
  specialize (Hnil Hcont). subst ret. repeat split; [|done].
  apply (errors_of_Permutation link) in Hperm. rewrite Hl in Herr.
  rewrite <- Hperm in Herr. by apply Permutation_nil_r in Herr.
Qed.

(** X14: without [cont], with at least one goroutine requested and a queue
    none of whose jobs fails: every action brings the end nearer, some
    thread can act as long as the dispatcher has not returned, some
    execution returns, and at every return the list is empty and every job
    has been copied. *)
Theorem fail_fast_returns_when_nothing_fails (src0 dest0 : Stack) link verbose (jobs : Z) :
  length src0 = length dest0 → 1 ≤ jobs → src0 ≠ [] →
  errors_of link (zip src0 dest0) = [] →
  ∃ L s0,
    jobDispatcher_init src0 dest0 link false verbose jobs = Some (L, s0)
    ∧ (∀ s t s', reachable L s0 s → step L s t = Some s' →
                 (measure L s' < measure L s)%nat)
    ∧ (∀ s, reachable L s0 s → returned (disp s) = false →
            ∃ t s', step L s t = Some s')
    ∧ (∃ s ret, reachable L s0 s ∧ disp s = DReturn ret)
    ∧ (∀ s ret, reachable L s0 s → disp s = DReturn ret →
         ret = [] ∧ copied L s ≡ₚ zip src0 dest0).
Proof.
  intros Hlen Hjobs Hne Hok.
  destruct (jobDispatcher_init src0 dest0 link false verbose jobs) as [[L s0]|] eqn:Hinit.
  2:{ rewrite jobDispatcher_init_clamp in Hinit by lia. done. }
  exists L, s0. split; [done|].
  assert (Hall : ∀ s, reachable L s0 s →
            inv L (zip src0 dest0) s ∧ locals_ok L ∧ l_cont L = false ∧ l_link L = link
            ∧ l_jobs L = Z.min jobs (Z.of_nat (length src0))).
  { intros s Hr. by eapply inv_of_execution. }
  destruct (Hall s0 (reachable_init _ _)) as (_ & HL & Hcont & Hlink & Hj).
  assert (H1 : 1 ≤ l_jobs L) by (destruct src0; [done|cbn in Hj; lia]).
  assert (Hprog : ∀ s, reachable L s0 s → returned (disp s) = false →
            ∃ t s', step L s t = Some s').
  { intros s Hr Hret. eapply progress_always; eauto; [|by apply Hall].
    right. by rewrite Hlink. }
  split; [|split; [done|split]].
  - intros s t s' Hr Hs. eapply step_measure; [|done]. by apply Hall.
  - eapply (returns_in_the_end L _ s0); eauto; [|constructor]. intros s Hr. by apply Hall.
  - intros s ret Hr Hd. destruct (Hall s Hr) as (Hinv & _).
    destruct (inv_returned _ _ _ _ Hinv Hd) as (_ & _ & _ & _ & Hperm & _ & Hnil).
    split; [by apply Hnil|]. unfold copied. rewrite <- Hperm, Hlink.
    by rewrite filter_succeeds_all by by apply errors_of_nil_succeeds.
Qed.

Lemma idle_dispatcher (src0 dest0 : Stack) link cont verbose (jobs : Z) :
  0 ≤ jobs → jobs = 0 ∨ src0 = [] →
  ∃ L s0,
    jobDispatcher_init src0 dest0 link cont verbose jobs = Some (L, s0)
    ∧ ∀ s, reachable L s0 s →
           routines s = [] ∧ copies s = [] ∧ errChannel s = []
           ∧ returned (disp s) = false.
Proof.
  intros Hjobs Hzero. eexists _, _. split; [by apply jobDispatcher_init_clamp|].
  assert (Hmin : Z.min jobs (Z.of_nat (length src0)) = 0).
  { destruct Hzero as [-> | ->]; cbn [length]; lia. }
  rewrite Hmin.
  set (L := Locals cont link verbose 0 (if cont then 0 * 2 else 0)).
  set (s0 := State (CopyJob false (Some src0) (Some dest0)) [] [] (DSpawn 0) [] []).
  set (s1 := State (CopyJob false (Some src0) (Some dest0)) [] [] (DRecv 0 []) [] []).
  assert (Hreach : ∀ s, reachable L s0 s → s = s0 ∨ s = s1).
  { intros s Hr. induction Hr as [|s t s' _ IH Hs]; [by left|]. right.
    destruct IH as [-> | ->]; destruct t as [|i]; cbn in Hs; by try injection Hs as <-. }
  intros s [-> | ->]%Hreach; by cbn.
Qed.

(** X15: when no goroutine is requested ([jobs] zero), also on a queue that
    holds jobs, the dispatcher starts none, so that nothing is copied and no
    message is sent, and it returns in no execution. *)
Theorem zero_jobs_dispatcher_never_returns (src0 dest0 : Stack) link cont verbose :
  ∃ L s0,
    jobDispatcher_init src0 dest0 link cont verbose 0 = Some (L, s0)
    ∧ (∀ s, reachable L s0 s →
         routines s = [] ∧ copies s = [] ∧ errChannel s = []
         ∧ returned (disp s) = false)
    ∧ ¬ ∃ ret, jobDispatcher_returns src0 dest0 link cont verbose 0 ret.
Proof.
  destruct (idle_dispatcher src0 dest0 link cont verbose 0) as (L & s0 & Hinit & Hidle);
    [done|by left|].
  exists L, s0. do 2 (split; [done|]).
  intros (ret & L' & s0' & s & Hinit' & Hr & Hd).
  rewrite Hinit in Hinit'. injection Hinit' as <- <-.
  destruct (Hidle s Hr) as (_ & _ & _ & Hret). by rewrite Hd in Hret.
Qed.

(** ** The destination list *)

Lemma map_replicate {A B} (f : A → B) (n : nat) (x : A) :
  map f (replicate n x) = replicate n (f x).
Proof. induction n as [|n IH]; cbn; by f_equal. Qed.

Lemma TrimPrefix_empty p : p ≠ EmptyString → TrimPrefix EmptyString p = EmptyString.
Proof. intros Hp. unfold TrimPrefix, HasPrefix. by destruct p. Qed.

(** X16: for a count that is not negative (a negative one makes [make]
    panic) and any source list, the destination list has as many paths as
    the count says: each of the first source paths, up
    to that number, without the source root when it starts with it and
    whole when it does not, after the destination root; then, when the
    count exceeds the source list, the bare destination root for each path
    missing.  The number returned by [copy] is the smaller of the count and
    the length of the source list. *)
Theorem mapDest_by_count (srcAbs destAbs : string) (count : Z) (srcFiles : Stack) :
  0 ≤ count →
  (mapDest srcAbs destAbs count srcFiles).1
  = map (λ file, slash destAbs +:+ TrimPrefix file (slash srcAbs))
        (take (Z.to_nat count) srcFiles)
    ++ replicate (Z.to_nat count - length srcFiles) (slash destAbs)
  ∧ (mapDest srcAbs destAbs count srcFiles).2
    = Z.of_nat (Nat.min (Z.to_nat count) (length srcFiles))
  ∧ length (mapDest srcAbs destAbs count srcFiles).1 = Z.to_nat count.
Proof.
  intros _. unfold mapDest, go_copy. rewrite length_replicate. cbn [fst snd].
  set (n := Z.to_nat count). rewrite drop_replicate.
  assert (Htake : take (n `min` length srcFiles) srcFiles = take n srcFiles).
  { destruct (decide (n ≤ length srcFiles)%nat).
    - by rewrite Nat.min_l.
    - rewrite Nat.min_r by lia. by rewrite !take_ge by lia. }
  rewrite Htake. replace (n - n `min` length srcFiles)%nat with (n - length srcFiles)%nat by lia.
  assert (Heq : map (λ file, Join [slash destAbs; file] EmptyString)
                  (map (λ file, TrimPrefix file (slash srcAbs))
                     (take n srcFiles ++ replicate (n - length srcFiles) EmptyString))
                = map (λ file, slash destAbs +:+ TrimPrefix file (slash srcAbs))
                    (take n srcFiles)
                  ++ replicate (n - length srcFiles) (slash destAbs)).
  { rewrite !map_app, !map_map, !map_replicate.
    rewrite TrimPrefix_empty by apply slash_nonempty.
    by rewrite Join_pair, string_app_nil_r. }
  rewrite Heq. repeat split.
  rewrite length_app, length_map, length_take, length_replicate. lia.
Qed.

(** X17: a trailing separator given with a root changes nothing: for roots
    that do not end in a separator, the destination list is the same
    whether or not a separator is added to either of them. *)
Theorem trailing_separator_is_immaterial (srcAbs destAbs : string) (count : Z)
    (srcFiles : Stack) :
  HasSuffix srcAbs "/" = false → HasSuffix destAbs "/" = false →
  mapDest (srcAbs +:+ "/") destAbs count srcFiles = mapDest srcAbs destAbs count srcFiles
  ∧ mapDest srcAbs (destAbs +:+ "/") count srcFiles
    = mapDest srcAbs destAbs count srcFiles.
Proof.
  intros Hs Hd.
  assert (Hslash : ∀ r, HasSuffix r "/" = false → slash (r +:+ "/") = slash r).
  { intros r Hr. unfold slash. by rewrite HasSuffix_app, Hr. }
  unfold mapDest. by rewrite !Hslash.
Qed.

(** ** Walks that fail, and walks from a given start *)

Lemma readable_Dir_false entries :
  readable (Dir entries) = false → Exists (λ e, readable e.2 = false) entries.
Proof.
  intros H. induction entries as [|[name c] es IH]; [done|].
  cbn [readable] in H. apply andb_false_iff in H as [H|H].
  - by constructor.
  - apply Exists_cons_tl, IH. done.
Qed.

Lemma walk_unreadable path n :
  readable n = false → Exists (λ v, v_err v = true) (walk path n).
Proof.
  revert path. induction n as [| | |entries IH] using fsnode_tree_ind; intros path Hr;
    try done; try (by constructor).
  rewrite walk_Dir. apply Exists_cons_tl.
  apply readable_Dir_false in Hr. apply Exists_exists in Hr as (e & He & Hre).
  rewrite Forall_forall in IH. specialize (IH e He (filepath_Join path e.1) Hre).
  apply Exists_exists in IH as (v & Hv & Hverr). apply Exists_exists. exists v.
  split; [|done]. apply list_elem_of_In, in_flat_map. exists e.
  split; by apply list_elem_of_In.
Qed.

Lemma walk_calls_fatal {A} (fn : WalkFunc A) (vs : list visit) (a : A) :
  (∀ a v, v_err v = true → fn a v = None) →
  Exists (λ v, v_err v = true) vs → walk_calls fn vs a = None.
Proof.
  intros Hfn H. revert a. induction H as [v vs Hv|v vs _ IH]; intros a; cbn.
  - by rewrite Hfn.
  - destruct (fn a v); [apply IH|done].
Qed.

(** X18: when some directory of the tree cannot be listed or some entry
    cannot be examined, both walks end the process in [log.Fatal], whatever
    they have counted or listed before. *)
Theorem unreadable_tree_is_fatal (root : string) (count : Z) (stk : Stack) :
  readable (fs root) = false →
  filepath_Walk root countFiles count = None ∧ recurseFileTree root stk = None.
Proof.
  intros Hr. pose proof (walk_unreadable root _ Hr) as Hex.
  unfold recurseFileTree, filepath_Walk. split.
  - apply walk_calls_fatal; [|done]. intros a v Hv. unfold countFiles. by rewrite Hv.
  - rewrite walk_calls_fatal; [done| |done].
    intros a v Hv. unfold visitDirectory. by rewrite Hv.
Qed.

(** X19: on a tree that can be read, the counting walk adds the number of
    non-directory entries to the count it starts from, and the listing walk
    leaves the stack it is given in place and puts the paths found after
    it, in the order of the walk. *)
Theorem walks_continue_from_their_start (root : string) (count : Z) (stk : Stack) :
  readable (fs root) = true →
  filepath_Walk root countFiles count = Some (count + Z.of_nat (count_files (fs root)))
  ∧ recurseFileTree root stk = Some (stk ++ file_paths (walk root (fs root))).
Proof.
  intros Hr. pose proof (walk_readable root _ Hr) as Hok.
  unfold recurseFileTree, filepath_Walk. split.
  - rewrite walk_calls_countFiles by done. by rewrite walk_count_files.
  - by rewrite walk_calls_visitDirectory.
Qed.

(** ** [parallelCopy] and [main] as a whole *)

Lemma parallelCopy_tree (src0 dest0 srcAbs destAbs : string)
    (hardlink useful cont verbose : bool) (jobs : Z) :
  cp_AbsolutePath src0 = inr srcAbs → os_Lstat srcAbs = inr true →
  cp_AbsolutePath dest0 = inr destAbs → os_Lstat destAbs = inr true →
  readable (fs srcAbs) = true →
  parallelCopy src0 dest0 hardlink true useful cont verbose jobs
  = ([call_AbsolutePath src0; call_Lstat srcAbs; call_AbsolutePath dest0;
      call_Lstat destAbs; call_Walk srcAbs; call_Walk srcAbs;
      call_jobDispatcher
        (file_paths (walk srcAbs (fs srcAbs)))
        (mapDest srcAbs destAbs (Z.of_nat (count_files (fs srcAbs)))
           (file_paths (walk srcAbs (fs srcAbs)))).1
        hardlink cont verbose jobs],
     ReturnAfterDispatch
       (file_paths (walk srcAbs (fs srcAbs)))
       (mapDest srcAbs destAbs (Z.of_nat (count_files (fs srcAbs)))
          (file_paths (walk srcAbs (fs srcAbs)))).1
       hardlink cont verbose jobs None).
Proof.
  intros Ha Hl Hda Hdl Hr. destruct (enumeration_spec srcAbs Hr) as (Hc & Hf & _).
  unfold parallelCopy. rewrite Ha, Hl. cbn [negb]. rewrite Hda, Hdl. cbn [negb].
  rewrite Hc, Hf. by destruct (mapDest _ _ _ _).
Qed.

(** X20: for a source directory that can be read, a destination directory
    and [recurse] set, [parallelCopy] resolves and examines the two roots,
    walks the source twice and calls [jobDispatcher] once, with the flags
    and [jobs] as given and two lists in step: one job for each entry of
    the tree that is not a directory, whose destination is the destination
    root followed by the source path without the source root. *)
Theorem parallelCopy_dispatches_one_job_per_file (src0 dest0 srcAbs destAbs : string)
    (hardlink useful cont verbose : bool) (jobs : Z) :
  cp_AbsolutePath src0 = inr srcAbs → os_Lstat srcAbs = inr true →
  cp_AbsolutePath dest0 = inr destAbs → os_Lstat destAbs = inr true →
  readable (fs srcAbs) = true →
  ∃ srcFiles destFiles,
    parallelCopy src0 dest0 hardlink true useful cont verbose jobs
    = ([call_AbsolutePath src0; call_Lstat srcAbs; call_AbsolutePath dest0;
        call_Lstat destAbs; call_Walk srcAbs; call_Walk srcAbs;
        call_jobDispatcher srcFiles destFiles hardlink cont verbose jobs],
       ReturnAfterDispatch srcFiles destFiles hardlink cont verbose jobs None)
    ∧ srcFiles = file_paths (walk srcAbs (fs srcAbs))
    ∧ length srcFiles = count_files (fs srcAbs)
    ∧ length destFiles = length srcFiles
    ∧ destFiles
      = map (λ file, slash destAbs +:+ TrimPrefix file (slash srcAbs)) srcFiles.
Proof.
  intros Ha Hl Hda Hdl Hr. eexists _, _.
  split; [by eapply parallelCopy_tree|]. split; [done|].
  destruct (enumeration_spec srcAbs Hr) as (_ & _ & Hlen). split; [done|].
  unfold mapDest, go_copy. rewrite Nat2Z.id, length_replicate, Hlen, Nat.min_id.
  cbn [fst]. rewrite drop_replicate, Nat.sub_diag. cbn [replicate].
  rewrite app_nil_r, take_ge by lia. rewrite map_map. split; [by rewrite length_map|].
  apply map_ext. intros file. by rewrite Join_pair.
Qed.

(** X21: what [parallelCopy] never does.  It calls [cp.CopyFile] itself only
    on a source that is not a directory, on the two arguments as given, and
    then returns its result; it walks only a source that resolves to a
    directory, with [recurse] set and a destination that is a directory; it
    calls [jobDispatcher] only after such walks; and it never does both a
    copy of its own and a walk. *)
Theorem parallelCopy_call_discipline (src0 dest0 : string)
    (hardlink recurse useful cont verbose : bool) (jobs : Z) :
  let run := parallelCopy src0 dest0 hardlink recurse useful cont verbose jobs in
  (∀ s d l, call_CopyFile s d l ∈ run.1 →
     (s, d, l) = (src0, dest0, hardlink)
     ∧ run.2 = Return (cp_CopyFile src0 dest0 hardlink)
     ∧ (∃ srcAbs, cp_AbsolutePath src0 = inr srcAbs ∧ os_Lstat srcAbs = inr false)
     ∧ ∀ root, call_Walk root ∉ run.1)
  ∧ (∀ root, call_Walk root ∈ run.1 →
       recurse = true
       ∧ cp_AbsolutePath src0 = inr root ∧ os_Lstat root = inr true
       ∧ ∃ destAbs, cp_AbsolutePath dest0 = inr destAbs ∧ os_Lstat destAbs = inr true)
  ∧ (∀ sf df l c v j, call_jobDispatcher sf df l c v j ∈ run.1 →
       run.2 = ReturnAfterDispatch sf df l c v j None
       ∧ (l, c, v, j) = (hardlink, cont, verbose, jobs)
       ∧ ∃ root, call_Walk root ∈ run.1).
Proof.
  cbn zeta. unfold parallelCopy.
  destruct (cp_AbsolutePath src0) as [e|srcAbs] eqn:Ha.
  { cbn. repeat split; intros; decompose_list_elem_of; done. }
  destruct (os_Lstat srcAbs) as [e|[|]] eqn:Hl; cbn [negb].
  { cbn. repeat split; intros; decompose_list_elem_of; done. }
  2:{ cbn. split; [|split]; intros; decompose_list_elem_of; simplify_eq.
      repeat split; [by eauto|]. intros root H. decompose_list_elem_of; done. }
  destruct recurse; cbn [negb].
  2:{ cbn. repeat split; intros; decompose_list_elem_of; done. }
  destruct (cp_AbsolutePath dest0) as [e|destAbs] eqn:Hda.
  { cbn. repeat split; intros; decompose_list_elem_of; done. }
  destruct (os_Lstat destAbs) as [e|[|]] eqn:Hdl; cbn [negb].
  { cbn. repeat split; intros; decompose_list_elem_of; done. }
  2:{ cbn. repeat split; intros; decompose_list_elem_of; done. }
  destruct (filepath_Walk srcAbs countFiles 0) as [count|].
  2:{ cbn. split; [|split]; intros; decompose_list_elem_of; simplify_eq.
      repeat split; eauto. }
  destruct (recurseFileTree srcAbs []) as [srcFiles|].
  2:{ cbn. split; [|split]; intros; decompose_list_elem_of; simplify_eq;
        repeat split; eauto. }
  destruct (mapDest srcAbs destAbs count srcFiles) as [destFiles numFiles].
  cbn. split; [|split]; intros; decompose_list_elem_of; simplify_eq;
    repeat split; eauto.
  exists srcAbs. do 4 (apply elem_of_cons; right). apply elem_of_cons. by left.
Qed.

(** X22: for a source directory in which some directory cannot be listed or
    some entry cannot be examined, [parallelCopy] ends the process in
    [log.Fatal] during the first walk: no job is dispatched and nothing is
    copied. *)
Theorem unreadable_source_aborts_before_any_copy (src0 dest0 srcAbs destAbs : string)
    (hardlink useful cont verbose : bool) (jobs : Z) :
  cp_AbsolutePath src0 = inr srcAbs → os_Lstat srcAbs = inr true →
  cp_AbsolutePath dest0 = inr destAbs → os_Lstat destAbs = inr true →
  readable (fs srcAbs) = false →
  parallelCopy src0 dest0 hardlink true useful cont verbose jobs
  = ([call_AbsolutePath src0; call_Lstat srcAbs; call_AbsolutePath dest0;
      call_Lstat destAbs; call_Walk srcAbs], Fatal).
Proof.
  intros Ha Hl Hda Hdl Hr. unfold parallelCopy. rewrite Ha, Hl. cbn [negb].
  rewrite Hda, Hdl. cbn [negb].
  assert (Hw : filepath_Walk srcAbs countFiles 0 = None).
  { unfold filepath_Walk. apply walk_calls_fatal; [|by apply walk_unreadable].
    intros a v Hv. unfold countFiles. by rewrite Hv. }
  by rewrite Hw.
Qed.



(** X25: for a source that is not a directory the exit status is that of
    the one copy: [main] exits with status 1 when [cp.CopyFile] returns an
    error and with status 0 when it returns nil, and with no other status,
    whatever the other flags are. *)
Theorem single_file_exit_status (src0 dest0 srcAbs : string)
    (hardlink recurse useful cont verbose : bool) (jobs : Z) (more : list string)
    (status : Z) :
  cp_AbsolutePath src0 = inr srcAbs → os_Lstat srcAbs = inr false →
  main_exits hardlink recurse useful cont verbose jobs (src0 :: dest0 :: more) status
  ↔ status = match cp_CopyFile src0 dest0 hardlink with Some _ => 1 | None => 0 end.
Proof.
  intros Ha Hl. unfold main_exits, parallelCopy_returns, parallelCopy.
  rewrite Ha, Hl. cbn. split.
  - by intros (r & -> & ->).
  - intros ->. eauto.
Qed.

(** X26: [main] exits with status 1, and with no other, when it is given
    fewer than two arguments, when the source cannot be resolved, and when
    the source is a directory and [recurse] is not set. *)
Theorem main_refuses_with_status_one (link recurse useful cont verbose : bool) (jobs : Z)
    (args : list string) (status : Z) :
  (length args < 2)%nat
  ∨ (∃ src0 dest0 more e, args = src0 :: dest0 :: more ∧ cp_AbsolutePath src0 = inl e)
  ∨ (∃ src0 dest0 more srcAbs,
       args = src0 :: dest0 :: more ∧ cp_AbsolutePath src0 = inr srcAbs
       ∧ os_Lstat srcAbs = inr true ∧ recurse = false) →
  main_exits link recurse useful cont verbose jobs args status ↔ status = 1.
Proof.
  intros [Hlen|[(src0 & dest0 & more & e & -> & Ha)
               |(src0 & dest0 & more & srcAbs & -> & Ha & Hl & ->)]].
  - destruct args as [|a [|b args]]; cbn in Hlen; try lia; done.
  - unfold main_exits, parallelCopy_returns, parallelCopy. rewrite Ha. cbn. split.
    + by intros (r & -> & ->).
    + intros ->. eauto.
  - unfold main_exits, parallelCopy_returns, parallelCopy. rewrite Ha, Hl. cbn. split.
    + by intros (r & -> & ->).
    + intros ->. eauto.
Qed.

(** ** One goroutine, and one error for each goroutine *)

Lemma single_goroutine_step (L : locals) (s s' : state) (t : thread) :
  l_jobs L ≤ 1 →
  map snd (claims s) = copies s ++ in_copy (routines s)
  ∧ (length (routines s) ≤ 1)%nat
  ∧ (∀ i, disp s = DSpawn i → Z.of_nat (length (routines s)) = i) →
  step L s t = Some s' →
  map snd (claims s') = copies s' ++ in_copy (routines s')
  ∧ (length (routines s') ≤ 1)%nat
  ∧ (∀ i, disp s' = DSpawn i → Z.of_nat (length (routines s')) = i).
Proof.
  intros Hj (Hc & Hlen & Hsp) Hstep.
  destruct s as [jobs ch rs d cps cls]. cbn [claims copies routines disp] in *.
  destruct t as [|i]; cbn [step] in Hstep.
  - unfold jobDispatcher_step in Hstep. cbn [disp errChannel] in Hstep.
    destruct d as [k|total ret|ret]; [| |done].
    + specialize (Hsp k eq_refl).
      destruct (k <? l_jobs L) eqn:Hk; injection Hstep as <-; cbn.
      * apply Z.ltb_lt in Hk. unfold in_copy in *.
        rewrite flat_map_app, length_app. cbn. rewrite app_nil_r.
        repeat split; [done|lia|]. intros i [= <-]. lia.
      * by repeat split.
    + destruct ch as [|m ch]; [done|].
      destruct (err m); injection Hstep as <-; cbn; repeat split; try done;
        intros i; by destruct (total - 1 =? 0).
  - cbn [routines] in Hstep. destruct (rs !! i) as [pc|] eqn:Hi; [|done].
    assert (i = 0%nat ∧ rs = [pc]) as [-> ->].
    { destruct rs as [|r [|??]]; cbn in Hlen; try lia; [done|].
      destruct i; cbn in Hi; [by injection Hi as ->|done]. }
    unfold copyRoutine, full in Hstep.
    cbn [copyLock errChannel routines disp copies claims] in Hstep.
    unfold in_copy in *. cbn in Hc.
    destruct pc; cbn in Hc.
    + destruct (mu jobs); [done|]. by injection Hstep as <-.
    + destruct (claim jobs) as [[[s1 d1]|] jobs'];
        injection Hstep as <-; cbn; repeat split; try done.
      rewrite map_app, Hc. by rewrite !app_nil_r.
    + destruct (l_cap L <=? Z.of_nat (length ch)); [done|]. by injection Hstep as <-.
    + by injection Hstep as <-.
    + destruct (cp_CopyFile _ _ _); injection Hstep as <-; cbn; repeat split; try done;
        by rewrite app_nil_r.
    + destruct (l_cap L <=? Z.of_nat (length ch)); [done|].
      injection Hstep as <-. cbn. repeat split; try done.
      by destruct (l_cont L).
    + done.
Qed.

(** X27: with at most one goroutine the files are copied from the last job
    of the queue to the first: in every execution the calls of
    [cp.CopyFile] made so far, in the order they were made, are an initial
    part of the queue read backwards. *)
Theorem single_goroutine_copies_last_to_first (src0 dest0 : Stack) link cont verbose
    (jobs : Z) L s0 s :
  length src0 = length dest0 → jobs ≤ 1 →
  jobDispatcher_init src0 dest0 link cont verbose jobs = Some (L, s0) →
  reachable L s0 s →
  ∃ rest, reverse (zip src0 dest0) = copies s ++ rest.
Proof.
  intros Hlen Hjobs Hinit Hr.
  assert (Hone : map snd (claims s) = copies s ++ in_copy (routines s)
                 ∧ (length (routines s) ≤ 1)%nat
                 ∧ (∀ i, disp s = DSpawn i → Z.of_nat (length (routines s)) = i)).
  { destruct (inv_of_execution _ _ _ _ _ _ _ _ _ Hlen Hinit (reachable_init _ _))
      as (_ & _ & _ & _ & Hj).
    assert (Hj1 : l_jobs L ≤ 1) by lia.
    apply jobDispatcher_init_inv in Hinit as (_ & _ & _ & _ & Hs0).
    clear Hj. induction Hr as [|s t s' Hr IH Hs].
    - subst s0. cbn. repeat split; [lia|]. by intros i [= <-].
    - by eapply single_goroutine_step. }
  destruct (inv_of_execution _ _ _ _ _ _ _ _ _ Hlen Hinit Hr) as (Hinv & _).
  destruct Hone as (Hc & _).
  exists (in_copy (routines s) ++ reverse (pending (copyLock s))).
  rewrite (inv_lifo _ _ _ Hinv), Hc, reverse_app, reverse_involutive.
  by rewrite app_assoc.
Qed.

(** X28: without [cont] each goroutine reports at most one failure: in
    every execution the errors the dispatcher has collected, together with
    the failure messages still in the channel, are no more than the
    goroutines it was to start. *)
Theorem fail_fast_one_error_per_goroutine (src0 dest0 : Stack) link verbose jobs L s0 s :
  length src0 = length dest0 →
  jobDispatcher_init src0 dest0 link false verbose jobs = Some (L, s0) →
  reachable L s0 s →
  Z.of_nat (length (reported (disp s)) + length (chan_errors (errChannel s)))
  ≤ Z.min jobs (Z.of_nat (length src0)).
Proof.
  intros Hlen Hinit Hr.
  destruct (inv_of_execution _ _ _ _ _ _ _ _ _ Hlen Hinit Hr)
    as (Hinv & [Hj _] & Hcont & _ & Hmin).
  pose proof (total_bounded _ _ _ _ _ _ _ _ _ Hinit Hr) as Htot.
  pose proof (inv_total _ _ _ Hinv) as Heq. pose proof (inv_spawn _ _ _ Hinv) as Hsp.
  rewrite Hcont in Heq. rewrite <- Hmin.
  assert (0 ≤ unspawned L (disp s)) by (destruct (disp s); cbn in *; lia).
  lia.
Qed.

End Program.

(** * The properties on the example tree *)

Lemma enumeration_counts_and_lists_files_witness :
  readable (demo_fs "/a") = true
  ∧ filepath_Walk demo_fs "/a" countFiles 0 = Some 5
  ∧ recurseFileTree demo_fs "/a" [] = Some demo_src.
Proof.
  split; [reflexivity|].
  destruct (enumeration_counts_and_lists_files demo_fs "/a" eq_refl) as (Hc & Hl & _).
  split; [exact Hc|exact Hl].
Defined.


Lemma claim_takes_tail_under_lock_witness :
  length demo_src = length demo_dest
  ∧ ∃ L s0,
      jobDispatcher_init demo_src demo_dest false true false 3 = Some (L, s0)
      ∧ reachable demo_CopyFile L s0 (run demo_CopyFile L (round_robin 2) s0)
      ∧ (claim (copyLock (run demo_CopyFile L (round_robin 2) s0))).1
        = Some ("/a/sub/f4", "/b/sub/f4")
      ∧ queue_ok (claim (copyLock (run demo_CopyFile L (round_robin 2) s0))).2.
Proof.
  split; [reflexivity|]. eexists _, _. split; [reflexivity|].
  split; [apply run_reachable; constructor|]. split; [reflexivity|].
  eapply (claim_takes_tail_under_lock demo_CopyFile demo_src demo_dest false true false 3);
    [reflexivity|reflexivity|apply run_reachable; constructor].
Defined.

Lemma each_job_claimed_exactly_once_witness :
  length demo_src = length demo_dest
  ∧ 3 ≤ Z.of_nat (length demo_src)
  ∧ ∃ L s0,
      jobDispatcher_init demo_src demo_dest false true false 3 = Some (L, s0)
      ∧ reachable demo_CopyFile L s0 (run demo_CopyFile L (round_robin 40) s0)
      ∧ src (copyLock (run demo_CopyFile L (round_robin 40) s0)) = None
      ∧ length (claims (run demo_CopyFile L (round_robin 40) s0)) = length demo_src.
Proof.
  split; [reflexivity|]. split; [vm_compute; discriminate|].
  eexists _, _. split; [reflexivity|].
  split; [apply run_reachable; constructor|]. split; [reflexivity|].
  eapply (each_job_claimed_exactly_once demo_CopyFile demo_src demo_dest false true false 3);
    [reflexivity|vm_compute; discriminate|reflexivity|apply run_reachable; constructor
    |reflexivity].
Defined.

Lemma single_file_is_copied_directly_witness :
  demo_AbsolutePath "/a/f1" = inr "/a/f1" ∧ demo_Lstat "/a/f1" = inr false
  ∧ parallelCopy demo_AbsolutePath demo_Lstat demo_CopyFile demo_fs
      "/a/f1" "/b/f1" true false false false false 4
    = ([call_AbsolutePath "/a/f1"; call_Lstat "/a/f1";
        call_CopyFile "/a/f1" "/b/f1" true], Return None).
Proof.
  do 2 (split; [reflexivity|]).
  exact (proj1 (single_file_is_copied_directly demo_AbsolutePath demo_Lstat
                  demo_CopyFile demo_fs "/a/f1" "/b/f1" "/a/f1"
                  true false false false false 4 eq_refl eq_refl)).
Defined.

Lemma directory_without_recurse_is_refused_witness :
  demo_AbsolutePath "/a" = inr "/a" ∧ demo_Lstat "/a" = inr true
  ∧ ∃ msg,
      parallelCopy demo_AbsolutePath demo_Lstat demo_CopyFile demo_fs
        "/a" "/b" false false false true false 2
      = ([call_AbsolutePath "/a"; call_Lstat "/a"], Return (Some msg))
      ∧ HasPrefix msg "source is a directory" = true.
Proof.
  do 2 (split; [reflexivity|]).
  destruct (directory_without_recurse_is_refused demo_AbsolutePath demo_Lstat
              demo_CopyFile demo_fs "/a" "/b" "/a" false false true false 2
              eq_refl eq_refl) as (msg & Hp & Hm & _).
  exists msg. split; assumption.
Defined.

Lemma continue_on_error_collects_the_one_failure_witness :
  length demo_src = 5%nat ∧ length demo_dest = 5%nat
  ∧ zip demo_src demo_dest !! 2%nat = Some ("/a/f3", "/b/f3")
  ∧ demo_CopyFile "/a/f3" "/b/f3" false = Some "permission denied"
  ∧ errors_of demo_CopyFile false (zip demo_src demo_dest) = ["permission denied"]
  ∧ ∃ L s0,
      jobDispatcher_init demo_src demo_dest false true false 3 = Some (L, s0)
      ∧ ∀ s ret, reachable demo_CopyFile L s0 s → disp s = DReturn ret →
                 ret = ["permission denied"]
                 ∧ copied demo_CopyFile L s
                   ≡ₚ [("/a/f1", "/b/f1"); ("/a/f2", "/b/f2");
                       ("/a/sub/f4", "/b/sub/f4"); ("/a/sub/f5", "/b/sub/f5")].
Proof.
  do 5 (split; [reflexivity|]).
  destruct (continue_on_error_collects_the_one_failure demo_CopyFile demo_src demo_dest
              false false 2 ("/a/f3", "/b/f3") "permission denied"
              eq_refl eq_refl eq_refl eq_refl eq_refl)
    as (L & s0 & Hinit & _ & _ & _ & Hret).
  exists L, s0. split; [exact Hinit|]. intros s ret Hr Hd.
  destruct (Hret s ret Hr Hd) as (H1 & H2 & _). split; [exact H1|exact H2].
Defined.

Lemma fail_fast_dispatcher_never_returns_witness :
  length demo_src = 5%nat ∧ length demo_dest = 5%nat
  ∧ zip demo_src demo_dest !! 2%nat = Some ("/a/f3", "/b/f3")
  ∧ demo_CopyFile "/a/f3" "/b/f3" false = Some "permission denied"
  ∧ errors_of demo_CopyFile false (zip demo_src demo_dest) = ["permission denied"]
  ∧ ∃ L s0,
      jobDispatcher_init demo_src demo_dest false false false 1 = Some (L, s0)
      ∧ ∀ s, reachable demo_CopyFile L s0 s → returned (disp s) = false.
Proof.
  do 5 (split; [reflexivity|]).
  destruct (fail_fast_dispatcher_never_returns demo_CopyFile demo_src demo_dest
              false false 2 ("/a/f3", "/b/f3") "permission denied"
              eq_refl eq_refl eq_refl eq_refl eq_refl)
    as (L & s0 & Hinit & Hnever & _).
  exists L, s0. split; [exact Hinit|exact Hnever].
Defined.

Lemma empty_queue_dispatcher_waits_for_ever_witness :
  0 ≤ 4
  ∧ ¬ ∃ ret, jobDispatcher_returns demo_CopyFile [] [] false true false 4 ret.
Proof.
  split; [discriminate|].
  destruct (empty_queue_dispatcher_waits_for_ever demo_CopyFile [] false true false 4)
    as (L & s0 & _ & _ & _ & _ & _ & Hno); [discriminate|exact Hno].
Defined.

(** C10 as stated fails for a negative worker count: [jobs] stays negative
    and [make] panics on the capacity, before any loop. *)
Lemma negative_worker_count_panics :
  ¬ ∃ L s0, jobDispatcher_init [] [] false false false (-1) = Some (L, s0)
            ∧ l_jobs L = 0.
Proof. intros (L & s0 & H & _). discriminate H. Qed.

(** C2 on the example: one goroutine, [cont] false, the third of five files
    fails.  The goroutine copies the two files claimed before it and
    returns; the dispatcher has received the error and waits for a
    completion message that no goroutine is left to send. *)
Lemma fail_fast_example_deadlock :
  ∃ L s0,
    jobDispatcher_init demo_src demo_dest false false false 1 = Some (L, s0)
    ∧ disp (run demo_CopyFile L (round_robin 40) s0) = DRecv 1 ["permission denied"]
    ∧ routines (run demo_CopyFile L (round_robin 40) s0) = [RExit]
    ∧ errChannel (run demo_CopyFile L (round_robin 40) s0) = []
    ∧ copied demo_CopyFile L (run demo_CopyFile L (round_robin 40) s0)
      = [("/a/sub/f5", "/b/sub/f5"); ("/a/sub/f4", "/b/sub/f4")].
Proof. eexists _, _. repeat split. Qed.

(** C1 on the example, with [cont] true: the dispatcher returns the list
    holding the error of the failed copy, and [parallelCopy] returns nil,
    in this and in every execution. *)
Theorem dispatch_result_is_discarded :
  snd (parallelCopy demo_AbsolutePath demo_Lstat demo_CopyFile demo_fs
         "/a" "/b" false true false true false 3)
  = ReturnAfterDispatch demo_src demo_dest false true false 3 None
  ∧ jobDispatcher_returns demo_CopyFile demo_src demo_dest false true false 3
      ["permission denied"]
  ∧ parallelCopy_returns demo_AbsolutePath demo_Lstat demo_CopyFile demo_fs
      "/a" "/b" false true false true false 3 None
  ∧ ∀ r, parallelCopy_returns demo_AbsolutePath demo_Lstat demo_CopyFile demo_fs
           "/a" "/b" false true false true false 3 r → r = None.
Proof.
  assert (Hret : jobDispatcher_returns demo_CopyFile demo_src demo_dest
                   false true false 3 ["permission denied"]).
  { eexists _, _, _. split; [reflexivity|]. split.
    - apply (run_reachable demo_CopyFile _ (round_robin 40)). constructor.
    - reflexivity. }
  split; [reflexivity|]. split; [exact Hret|]. split.
  - unfold parallelCopy_returns. cbn. split; [done|]. eauto.
  - unfold parallelCopy_returns. cbn. by intros r [-> _].
Qed.

(** * The further properties on the examples *)

Lemma claim_with_exhausted_dest_witness :
  src (CopyJob false (Some ["/a/f1"; "/a/f2"]) (Some [])) = Some (["/a/f1"] ++ ["/a/f2"])
  ∧ default [] (dest (CopyJob false (Some ["/a/f1"; "/a/f2"]) (Some []))) = []
  ∧ claim (CopyJob false (Some ["/a/f1"; "/a/f2"]) (Some []))
    = (Some ("/a/f2", EmptyString), CopyJob false (Some ["/a/f1"]) None).
Proof.
  do 2 (split; [reflexivity|]).
  exact (claim_with_exhausted_dest (CopyJob false (Some ["/a/f1"; "/a/f2"]) (Some []))
           ["/a/f1"] "/a/f2" eq_refl eq_refl).
Defined.

Lemma merge_then_pop_all_witness :
  (length ["a"; "b"] + length ["c"; "d"] < 5)%nat
  ∧ pop_all 5 (Merge (Some ["a"; "b"]) ["c"; "d"]) = ["d"; "c"; "b"; "a"].
Proof.
  split; [cbn; lia|].
  exact (merge_then_pop_all ["a"; "b"] ["c"; "d"] 5 ltac:(cbn; lia)).
Defined.


Lemma fail_fast_send_never_waits_witness :
  length demo_src = length demo_dest
  ∧ ∃ L s0 s,
      jobDispatcher_init demo_src demo_dest false false false 2 = Some (L, s0)
      ∧ reachable demo_CopyFile L s0 s
      ∧ routines s !! 0%nat = Some (RFail "/a/f3" "/b/f3" "permission denied")
      ∧ Z.of_nat (length (errChannel s)) < l_cap L
      ∧ ∃ s', step demo_CopyFile L s (Routine 0) = Some s'.
Proof.
  split; [reflexivity|].
  eexists _, _, (run demo_CopyFile _ (Dispatcher :: replicate 9 (Routine 0)) _).
  split; [reflexivity|]. split; [apply run_reachable; constructor|].
  split; [reflexivity|].
  exact (fail_fast_send_never_waits demo_CopyFile demo_src demo_dest
           false false 2 _ _ _ 0%nat _ eq_refl eq_refl
           (run_reachable demo_CopyFile _ (Dispatcher :: replicate 9 (Routine 0)) _ _
              (reachable_init _ _ _))
           eq_refl (or_intror (ex_intro _ _ (ex_intro _ _ (ex_intro _ _ eq_refl))))).
Defined.

Lemma each_job_copied_at_most_once_witness :
  length demo_src = length demo_dest
  ∧ ∃ L s0,
      jobDispatcher_init demo_src demo_dest false true false 3 = Some (L, s0)
      ∧ reachable demo_CopyFile L s0 (run demo_CopyFile L (round_robin 5) s0)
      ∧ zip demo_src demo_dest
        ≡ₚ pending (copyLock (run demo_CopyFile L (round_robin 5) s0))
           ++ in_copy (routines (run demo_CopyFile L (round_robin 5) s0))
           ++ copies (run demo_CopyFile L (round_robin 5) s0).
Proof.
  split; [reflexivity|]. eexists _, _. split; [reflexivity|].
  split; [apply run_reachable; constructor|].
  exact (each_job_copied_at_most_once demo_CopyFile demo_src demo_dest
           false true false 3 _ _ _ eq_refl eq_refl
           (run_reachable demo_CopyFile _ (round_robin 5) _ _ (reachable_init _ _ _))).
Defined.

Lemma collected_errors_come_from_jobs_witness :
  length demo_src = length demo_dest
  ∧ ∃ L s0,
      jobDispatcher_init demo_src demo_dest false true false 3 = Some (L, s0)
      ∧ reachable demo_CopyFile L s0 (run demo_CopyFile L (round_robin 40) s0)
      ∧ reported (disp (run demo_CopyFile L (round_robin 40) s0)) = ["permission denied"]
      ∧ (length (reported (disp (run demo_CopyFile L (round_robin 40) s0)))
         ≤ length demo_src)%nat.
Proof.
  split; [reflexivity|]. eexists _, _. split; [reflexivity|].
  split; [apply run_reachable; constructor|]. split; [reflexivity|].
  exact (proj2 (collected_errors_come_from_jobs demo_CopyFile demo_src demo_dest
                  false true false 3 _ _ _ eq_refl eq_refl
                  (run_reachable demo_CopyFile _ (round_robin 40) _ _
                     (reachable_init _ _ _)))).
Defined.

Lemma continue_mode_returns_every_error_witness :
  length demo_src = length demo_dest ∧ 1 ≤ 2 ∧ demo_src ≠ []
  ∧ ∃ L s0,
      jobDispatcher_init demo_src demo_dest false true false 2 = Some (L, s0)
      ∧ ∀ s ret, reachable demo_CopyFile L s0 s → disp s = DReturn ret →
                 ret ≡ₚ ["permission denied"].
Proof.
  split; [reflexivity|]. split; [discriminate|]. split; [discriminate|].
  destruct (continue_mode_returns_every_error demo_CopyFile demo_src demo_dest
              false false 2 eq_refl ltac:(discriminate) ltac:(discriminate))
    as (L & s0 & Hinit & _ & _ & _ & Hret).
  exists L, s0. split; [exact Hinit|]. intros s ret Hr Hd.
  exact (proj1 (proj2 (Hret s ret Hr Hd))).
Defined.

Lemma fail_fast_returns_only_without_failure_witness :
  length demo_ok_src = length demo_ok_dest
  ∧ ∃ L s0,
      jobDispatcher_init demo_ok_src demo_ok_dest false false false 2 = Some (L, s0)
      ∧ reachable demo_CopyFile L s0 (run demo_CopyFile L (round_robin 40) s0)
      ∧ disp (run demo_CopyFile L (round_robin 40) s0) = DReturn []
      ∧ errors_of demo_CopyFile false (zip demo_ok_src demo_ok_dest) = [].
Proof.
  split; [reflexivity|]. eexists _, _. split; [reflexivity|].
  split; [apply run_reachable; constructor|]. split; [reflexivity|].
  exact (proj1 (proj2 (fail_fast_returns_only_without_failure demo_CopyFile
                         demo_ok_src demo_ok_dest false false 2 _ _ _ []
                         eq_refl eq_refl
                         (run_reachable demo_CopyFile _ (round_robin 40) _ _
                            (reachable_init _ _ _))
                         eq_refl))).
Defined.

Lemma fail_fast_returns_when_nothing_fails_witness :
  length demo_ok_src = length demo_ok_dest ∧ 1 ≤ 2 ∧ demo_ok_src ≠ []
  ∧ errors_of demo_CopyFile false (zip demo_ok_src demo_ok_dest) = []
  ∧ ∃ L s0,
      jobDispatcher_init demo_ok_src demo_ok_dest false false false 2 = Some (L, s0)
      ∧ ∃ s ret, reachable demo_CopyFile L s0 s ∧ disp s = DReturn ret.
Proof.
  split; [reflexivity|]. split; [discriminate|]. split; [discriminate|].
  split; [reflexivity|].
  destruct (fail_fast_returns_when_nothing_fails demo_CopyFile demo_ok_src demo_ok_dest
              false false 2 eq_refl ltac:(discriminate) ltac:(discriminate) eq_refl)
    as (L & s0 & Hinit & _ & _ & Hsome & _).
  exists L, s0. split; [exact Hinit|exact Hsome].
Defined.

Lemma mapDest_by_count_witness :
  0 ≤ 7
  ∧ (mapDest "/a" "/b" 7 demo_src).1 = demo_dest ++ ["/b/"; "/b/"]
  ∧ (mapDest "/a" "/b" 7 demo_src).2 = 5
  ∧ length (mapDest "/a" "/b" 7 demo_src).1 = Z.to_nat 7.
Proof.
  split; [discriminate|]. split; [reflexivity|]. split; [reflexivity|].
  exact (proj2 (proj2 (mapDest_by_count "/a" "/b" 7 demo_src ltac:(discriminate)))).
Defined.

Lemma trailing_separator_is_immaterial_witness :
  HasSuffix "/a" "/" = false ∧ HasSuffix "/b" "/" = false
  ∧ mapDest ("/a" +:+ "/") "/b" 5 demo_src = mapDest "/a" "/b" 5 demo_src
  ∧ (mapDest "/a" "/b" 5 demo_src).1 = demo_dest.
Proof.
  do 2 (split; [reflexivity|]). split; [|reflexivity].
  exact (proj1 (trailing_separator_is_immaterial "/a" "/b" 5 demo_src eq_refl eq_refl)).
Defined.

Lemma unreadable_tree_is_fatal_witness :
  readable (demo_locked_fs "/a") = false
  ∧ filepath_Walk demo_locked_fs "/a" countFiles 0 = None
  ∧ recurseFileTree demo_locked_fs "/a" [] = None.
Proof.
  split; [reflexivity|].
  exact (unreadable_tree_is_fatal demo_locked_fs "/a" 0 [] eq_refl).
Defined.

Lemma walks_continue_from_their_start_witness :
  readable (demo_fs "/a") = true
  ∧ filepath_Walk demo_fs "/a" countFiles 10 = Some 15
  ∧ recurseFileTree demo_fs "/a" ["/x"] = Some ("/x" :: demo_src).
Proof.
  split; [reflexivity|].
  exact (walks_continue_from_their_start demo_fs "/a" 10 ["/x"] eq_refl).
Defined.

Lemma parallelCopy_dispatches_one_job_per_file_witness :
  demo_AbsolutePath "/a" = inr "/a" ∧ demo_Lstat "/a" = inr true
  ∧ demo_AbsolutePath "/b" = inr "/b" ∧ demo_Lstat "/b" = inr true
  ∧ readable (demo_fs "/a") = true
  ∧ ∃ srcFiles destFiles,
      snd (parallelCopy demo_AbsolutePath demo_Lstat demo_CopyFile demo_fs
             "/a" "/b" false true false true false 3)
      = ReturnAfterDispatch srcFiles destFiles false true false 3 None
      ∧ length destFiles = length srcFiles.
Proof.
  do 5 (split; [reflexivity|]).
  destruct (parallelCopy_dispatches_one_job_per_file demo_AbsolutePath demo_Lstat
              demo_CopyFile demo_fs "/a" "/b" "/a" "/b" false false true false 3
              eq_refl eq_refl eq_refl eq_refl eq_refl)
    as (srcFiles & destFiles & Hp & _ & _ & Hlen & _).
  exists srcFiles, destFiles. split; [by rewrite Hp|exact Hlen].
Defined.

Lemma unreadable_source_aborts_before_any_copy_witness :
  demo_AbsolutePath "/a" = inr "/a" ∧ demo_Lstat "/a" = inr true
  ∧ demo_AbsolutePath "/b" = inr "/b" ∧ demo_Lstat "/b" = inr true
  ∧ readable (demo_locked_fs "/a") = false
  ∧ snd (parallelCopy demo_AbsolutePath demo_Lstat demo_CopyFile demo_locked_fs
           "/a" "/b" false true false true false 3) = Fatal.
Proof.
  do 5 (split; [reflexivity|]).
  rewrite (unreadable_source_aborts_before_any_copy demo_AbsolutePath demo_Lstat
             demo_CopyFile demo_locked_fs "/a" "/b" "/a" "/b" false false true false 3
             eq_refl eq_refl eq_refl eq_refl eq_refl).
  reflexivity.
Defined.



Lemma single_file_exit_status_witness :
  demo_AbsolutePath "/a/f3" = inr "/a/f3" ∧ demo_Lstat "/a/f3" = inr false
  ∧ main_exits demo_AbsolutePath demo_Lstat demo_CopyFile demo_fs
      false false false false false 1 ["/a/f3"; "/b/f3"] 1.
Proof.
  do 2 (split; [reflexivity|]).
  exact (proj2 (single_file_exit_status demo_AbsolutePath demo_Lstat demo_CopyFile
                  demo_fs "/a/f3" "/b/f3" "/a/f3" false false false false false 1 [] 1
                  eq_refl eq_refl) eq_refl).
Defined.

Lemma main_refuses_with_status_one_witness :
  (length ["/a"] < 2)%nat
  ∧ main_exits demo_AbsolutePath demo_Lstat demo_CopyFile demo_fs
      false true false false false 1 ["/a"] 1.
Proof.
  split; [cbn; lia|].
  destruct (main_refuses_with_status_one demo_AbsolutePath demo_Lstat demo_CopyFile
              demo_fs false true false false false 1 ["/a"] 1) as [_ H];
    [left; cbn; lia|].
  exact (H eq_refl).
Defined.

Lemma single_goroutine_copies_last_to_first_witness :
  length demo_src = length demo_dest ∧ 1 ≤ 1
  ∧ ∃ L s0,
      jobDispatcher_init demo_src demo_dest false true false 1 = Some (L, s0)
      ∧ reachable demo_CopyFile L s0 (run demo_CopyFile L (round_robin 40) s0)
      ∧ copies (run demo_CopyFile L (round_robin 40) s0)
        = reverse (zip demo_src demo_dest)
      ∧ ∃ rest, reverse (zip demo_src demo_dest)
                = copies (run demo_CopyFile L (round_robin 40) s0) ++ rest.
Proof.
  split; [reflexivity|]. split; [discriminate|]. eexists _, _. split; [reflexivity|].
  split; [apply run_reachable; constructor|]. split; [reflexivity|].
  exact (single_goroutine_copies_last_to_first demo_CopyFile demo_src demo_dest
           false true false 1 _ _ _ eq_refl ltac:(discriminate) eq_refl
           (run_reachable demo_CopyFile _ (round_robin 40) _ _ (reachable_init _ _ _))).
Defined.

Lemma fail_fast_one_error_per_goroutine_witness :
  length demo_src = length demo_dest
  ∧ ∃ L s0,
      jobDispatcher_init demo_src demo_dest false false false 2 = Some (L, s0)
      ∧ reachable demo_CopyFile L s0 (run demo_CopyFile L (round_robin 40) s0)
      ∧ reported (disp (run demo_CopyFile L (round_robin 40) s0)) = ["permission denied"]
      ∧ Z.of_nat
          (length (reported (disp (run demo_CopyFile L (round_robin 40) s0)))
           + length (chan_errors (errChannel (run demo_CopyFile L (round_robin 40) s0))))
        ≤ Z.min 2 (Z.of_nat (length demo_src)).
Proof.
  split; [reflexivity|]. eexists _, _. split; [reflexivity|].
  split; [apply run_reachable; constructor|]. split; [reflexivity|].
  exact (fail_fast_one_error_per_goroutine demo_CopyFile demo_src demo_dest
           false false 2 _ _ _ eq_refl eq_refl
           (run_reachable demo_CopyFile _ (round_robin 40) _ _ (reachable_init _ _ _))).
Defined.
